(** * The FX graph minifier (functorch/_src/fx_minifier.py)

    A shallow embedding of the minifier and of the part of [torch.fx] it
    drives.  Python objects that are mutated in place (graphs and input
    lists) live in a store and are referred to by location; printing and
    calls of the failure oracle are recorded in a trace. *)

From Stdlib Require Import ZArith Lia Bool.
From stdpp Require Import base option list gmap strings.

Set Default Proof Using "Type".

(** ** Exceptions, results, and the state-and-error monad *)

Inductive Exn :=
| RuntimeError (msg : string)
| KeyError
| AssertionError
| ValueError
| Dangling. (* a location without an object: unreachable from Python *)

#[global] Instance Exn_eq_dec : EqDecision Exn.
Proof. solve_decision. Defined.

(** The outcome of running a piece of code from a state of type [S]:
    a value, a raised exception, or an exhausted recursion budget. *)
Inductive Res (S A : Type) :=
| Ret (a : A) (s : S)
| Raise (e : Exn) (s : S)
| Diverge.
Arguments Ret {S A} a s.
Arguments Raise {S A} e s.
Arguments Diverge {S A}.

Definition St (S A : Type) : Type := S -> Res S A.

Definition ret {S A} (a : A) : St S A := fun s => Ret a s.
Definition raise {S A} (e : Exn) : St S A := fun s => Raise e s.
Definition diverge {S A} : St S A := fun _ => Diverge.
Definition bind {S A B} (m : St S A) (k : A -> St S B) : St S B :=
  fun s => match m s with
           | Ret a s' => k a s'
           | Raise e s' => Raise e s'
           | Diverge => Diverge
           end.
Definition get {S} : St S S := fun s => Ret s s.
Definition put {S} (s : S) : St S unit := fun _ => Ret tt s.
Definition modify {S} (f : S -> S) : St S unit := fun s => Ret tt (f s).

Notation "'let!' x := m 'in' k" := (bind m (fun x => k))
  (at level 10, x pattern, m at level 100, k at level 200).
Notation "m >> k" := (bind m (fun _ => k))
  (at level 100, k at level 200, right associativity).

(** [for x in l: body(x)] *)
Fixpoint for_each {S A} (l : list A) (body : A -> St S unit) : St S unit :=
  match l with
  | [] => ret tt
  | x :: l' => body x >> for_each l' body
  end.

(** ** torch.fx: values, nodes and graphs *)

Module Fx.

(** Runtime values: a tensor, a composite of values (tuple or list), or any
    other Python object. *)
#[warnings="-register-all"]
Inductive Value :=
| Tensor (data : Z)
| Aggregate (items : list Value)
| Other (payload : Z).

#[global] Instance Value_inhabited : Inhabited Value := populate (Other 0).

(** [isinstance(v, torch.Tensor)] *)
Definition is_tensor (v : Value) : bool :=
  match v with Tensor _ => true | _ => false end.

(** [torch.zeros(())] *)
Definition torch_zeros : Value := Tensor 0.

Inductive Op :=
| placeholder | call_function | call_method | call_module | get_attr | output.

#[global] Instance Op_eq_dec : EqDecision Op.
Proof. solve_decision. Defined.

(** A node's target: the opaque operation payload, or a name. *)
Inductive Target :=
| Payload (f : nat)
| Named (n : nat).

#[global] Instance Target_eq_dec : EqDecision Target.
Proof. solve_decision. Defined.

(** Modelled from the spec: [torch.fx.Node] is not part of the sources.
    A node has an identity (its name, unique in a graph), a kind, an opaque
    payload, the ordered list of its operands (by identity) and the
    optional value cached under [meta['concrete_value']]. *)
Record Node := mkNode {
  name : nat;
  op : Op;
  target : Target;
  args : list nat;
  concrete_value : option Value;
}.

(** Modelled from the spec: [torch.fx.Graph] is not part of the sources.
    A graph is the ordered sequence of its nodes. *)
Abbreviation Graph := (list Node).

Definition has_name (i : nat) (n : Node) : bool := bool_decide (name n = i).

Definition find_node (g : Graph) (i : nat) : option Node :=
  List.find (has_name i) g.

(** In-place update of the node object named [i]. *)
Definition update_node (i : nat) (f : Node -> Node) (g : Graph) : Graph :=
  (fun n => if has_name i n then f n else n) <$> g.

Definition uses (i : nat) (n : Node) : bool := bool_decide (i ∈ args n).

(** Modelled from the spec: [node.users], the consumers of a node, are the
    nodes that have it as an operand, in graph order. *)
Definition users (g : Graph) (i : nat) : list nat :=
  name <$> List.filter (uses i) g.

Definition names (g : Graph) : list nat := name <$> g.

(** A name that no node of the graph carries. *)
Definition fresh_name (g : Graph) : nat := S (max_list (names g)).

(** Modelled from the spec: [Graph.erase_node] is not part of the sources.
    "Removing a node requires it have zero remaining consumers": it raises
    when the node still has users and otherwise takes the node out of the
    sequence. *)
Definition erase_node (i : nat) : St Graph unit :=
  fun g => match users g i with
           | [] => Ret tt (List.filter (fun n => negb (has_name i n)) g)
           | _ :: _ =>
               Raise (RuntimeError "Tried to erase Node but it still had users") g
           end.

(** Modelled from the spec: [Node.is_impure] is not part of the sources.
    Inputs and the output are never dead code. *)
Definition is_impure (n : Node) : bool :=
  match op n with placeholder | output => true | _ => false end.

Definition node_named (i : nat) : St Graph Node :=
  fun g => match find_node g i with
           | Some n => Ret n g
           | None => Raise Dangling g
           end.

Fixpoint dead_code_loop (todo : list nat) (changed : bool) : St Graph bool :=
  match todo with
  | [] => ret changed
  | i :: todo' =>
      let! node := node_named i in
      let! us := (fun g => Ret (users g i) g) in
      if negb (is_impure node) && bool_decide (us = [])
      then erase_node i >> dead_code_loop todo' true
      else dead_code_loop todo' changed
  end.

(** Modelled from the spec: [Graph.eliminate_dead_code] is not part of the
    sources.  It "removes nodes with zero consumers that are not the
    output" (input nodes are the business of remove-unused-inputs), going
    through the nodes from the last to the first, and "returns whether
    anything was removed". *)
Definition eliminate_dead_code : St Graph bool :=
  let! g := get in dead_code_loop (rev (names g)) false.

Fixpoint lint_from (seen : list nat) (g : Graph) : bool :=
  match g with
  | [] => true
  | n :: g' =>
      bool_decide (name n ∉ seen)
      && forallb (fun a => bool_decide (a ∈ seen)) (args n)
      && lint_from (name n :: seen) g'
  end.

(** Modelled from the spec: [Graph.lint] is not part of the sources.
    Structural validation checks that there are "no duplicate identities"
    and that "operand references resolve to nodes that precede the
    referencing node". *)
Definition lint (g : Graph) : bool := lint_from [] g.

(** [env[x]] for every operand [x], a [KeyError] when one is missing. *)
Fixpoint map_args {S} (env : gmap nat nat) (xs : list nat) : St S (list nat) :=
  match xs with
  | [] => ret []
  | x :: xs' =>
      match env !! x with
      | None => raise KeyError
      | Some y => let! ys := map_args env xs' in ret (y :: ys)
      end
  end.

(** The name a new node gets: the one asked for unless it is taken. *)
Definition create_name (candidate : nat) (g : Graph) : nat :=
  if bool_decide (candidate ∈ names g) then fresh_name g else candidate.

(** Modelled from the spec: [Graph.node_copy] is not part of the sources.
    [graph.node_copy(node, lambda x: env[x])] appends a copy of [node],
    with its operands looked up in [env], and returns the new node. *)
Definition node_copy (node : Node) (env : gmap nat nat) : St Graph nat :=
  let! new_args := map_args env (args node) in
  let! g := get in
  let new_name := create_name (name node) g in
  put (g ++ [mkNode new_name (op node) (target node) new_args
               (concrete_value node)]) >>
  ret new_name.

(** Modelled from the spec: [Graph.output] is not part of the sources.
    [graph.output(result)] appends an output node whose operands are
    [result]. *)
Definition add_output (result : list nat) : St Graph nat :=
  let! g := get in
  let new_name := fresh_name g in
  put (g ++ [mkNode new_name output (Named new_name) result None]) >>
  ret new_name.

End Fx.
Import Fx.

(** ** ConcreteProp *)

(** [torch.fx.node.map_aggregate]: apply [fn] to every leaf. *)
Fixpoint map_aggregate (fn : Value -> Value) (a : Value) : Value :=
  match a with
  | Aggregate items => Aggregate (map (map_aggregate fn) items)
  | _ => fn a
  end.

(** [extract_tensor_meta] returns its argument; its effect on the flag
    [found_tensor] is [found_tensor] below. *)
Definition extract_tensor_meta (obj : Value) : Value := obj.

(** The flag after [map_aggregate(result, extract_tensor_meta)]: some leaf
    is a tensor. *)
Fixpoint found_tensor (a : Value) : bool :=
  match a with
  | Tensor _ => true
  | Aggregate items => existsb found_tensor items
  | Other _ => false
  end.

(** [ConcreteProp.run_node], given the [result] of [super().run_node(n)]. *)
Definition run_node (n : Node) (result : Value) : Node :=
  let concrete_value := map_aggregate extract_tensor_meta result in
  if found_tensor result
  then mkNode (name n) (op n) (target n) (args n) (Some concrete_value)
  else n.

(** ** Conversion of a node into a placeholder *)

(** The two objects [_convert_node_to_placeholder] mutates: the graph that
    owns [node], and the list [inps]. *)
Abbreviation Conv := (Graph * list Value)%type.

Definition the_node (i : nat) : St Conv Node :=
  fun s => match find_node (fst s) i with
           | Some n => Ret n s
           | None => Raise Dangling s
           end.

(** [node.op = 'placeholder'; node.args = (); node.target = node.name] *)
Definition as_placeholder (n : Node) : Node :=
  mkNode (name n) placeholder (Named (name n)) [] (concrete_value n).

Definition set_placeholder (i : nat) : St Conv unit :=
  modify (fun s => (update_node i as_placeholder (fst s), snd s)).

(** [inps.append(v)] *)
Definition append (v : Value) : St Conv unit :=
  modify (fun s => (fst s, snd s ++ [v])).

(** [list(node.users)] *)
Definition users_of (i : nat) : St Conv (list nat) :=
  fun s => Ret (users (fst s) i) s.

(** [node.meta['concrete_value']] *)
Definition meta_concrete_value (n : Node) : St Conv Value :=
  match concrete_value n with
  | Some v => ret v
  | None => raise KeyError
  end.

(** The body of [_convert_node_to_placeholder] with a bound on the depth of
    the recursion. *)
Fixpoint convert (depth : nat) (i : nat) : St Conv unit :=
  match depth with
  | 0 => diverge
  | S depth' =>
      let! node := the_node i in
      if decide (op node = output) then ret tt
      else
        set_placeholder i >>
        let! concrete_val := meta_concrete_value node in
        if is_tensor concrete_val then append concrete_val
        else
          append torch_zeros >>
          let! tuple_users := users_of i in
          for_each tuple_users (convert depth')
  end.

(** The recursion follows consumer edges and clears the operands of every
    node it visits, so its depth never exceeds the number of nodes. *)
Definition _convert_node_to_placeholder (i : nat) : St Conv unit :=
  fun s => convert (S (length (fst s))) i s.

(** The number of placeholder nodes of a graph. *)
Definition is_placeholder (n : Node) : bool := bool_decide (op n = placeholder).
Definition count_placeholders (g : Graph) : nat :=
  length (List.filter is_placeholder g).

(** ** The store, the trace and the objects of a run *)

(** Graphs and lists are Python objects: a variable holds a location. *)
Abbreviation loc := nat.

(** Lines written by [print]. *)
Inductive Line :=
| StartedOff (cur_size : nat)
| StrategyLine (name : string)
| SuccessNodes (old_nodes new_nodes : nat)
| SuccessInps (old_inps new_inps : nat)
| WarningLine
| FailLine (name : string)
| FailSuffixLine
| MadeQueries (num_queries : nat).

(** What a run does to the outside: it prints, it calls [module_fails] and
    at the end it calls [generate_repro]. *)
Inductive Event :=
| Print (l : Line)
| Query (g : Graph) (inps : list Value)
| Repro (g : Graph) (inps : list Value).

Record World := mkWorld {
  graphs : list Graph;
  lists : list (list Value);
  num_queries : nat;
  trace : list Event;
}.

Definition set_graphs (f : list Graph -> list Graph) (w : World) : World :=
  mkWorld (f (graphs w)) (lists w) (num_queries w) (trace w).
Definition set_lists (f : list (list Value) -> list (list Value)) (w : World)
  : World :=
  mkWorld (graphs w) (f (lists w)) (num_queries w) (trace w).
Definition log (e : Event) (w : World) : World :=
  mkWorld (graphs w) (lists w) (num_queries w) (trace w ++ [e]).
Definition count_query (w : World) : World :=
  mkWorld (graphs w) (lists w) (S (num_queries w)) (trace w).
Definition emit (e : Event) : St World unit := modify (log e).
Definition print (l : Line) : St World unit := emit (Print l).

(** A new graph object holding [g]: [fx.Graph()], [copy.deepcopy(graph)]. *)
Definition alloc_graph (g : Graph) : St World loc :=
  fun w => Ret (length (graphs w)) (set_graphs (fun h => h ++ [g]) w).

Definition read_graph (l : loc) : St World Graph :=
  fun w => match graphs w !! l with
           | Some g => Ret g w
           | None => Raise Dangling w
           end.

(** Run code that works on one graph object on the object at [l]. *)
Definition with_graph {A} (l : loc) (m : St Graph A) : St World A :=
  fun w => match graphs w !! l with
           | None => Raise Dangling w
           | Some g =>
               match m g with
               | Ret a g' => Ret a (set_graphs (fun h => <[l := g']> h) w)
               | Raise e g' => Raise e (set_graphs (fun h => <[l := g']> h) w)
               | Diverge => Diverge
               end
           end.

(** A new list object holding [v]: [[]], [list(inps)], [inps[:]]. *)
Definition alloc_list (v : list Value) : St World loc :=
  fun w => Ret (length (lists w)) (set_lists (fun h => h ++ [v]) w).

Definition read_list (l : loc) : St World (list Value) :=
  fun w => match lists w !! l with
           | Some v => Ret v w
           | None => Raise Dangling w
           end.

Definition list_append (l : loc) (v : Value) : St World unit :=
  fun w => match lists w !! l with
           | Some vs => Ret tt (set_lists (fun h => <[l := vs ++ [v]]> h) w)
           | None => Raise Dangling w
           end.

(** Run code that mutates a graph and a list on the objects at [gl], [il]. *)
Definition in_place {A} (gl il : loc) (m : St Conv A) : St World A :=
  fun w => match graphs w !! gl, lists w !! il with
           | Some g, Some v =>
               let upd s :=
                 set_lists (fun h => <[il := snd s]> h)
                   (set_graphs (fun h => <[gl := fst s]> h) w) in
               match m (g, v) with
               | Ret a s => Ret a (upd s)
               | Raise e s => Raise e (upd s)
               | Diverge => Diverge
               end
           | _, _ => Raise Dangling w
           end.

(** [copy.deepcopy(graph)] *)
Definition deepcopy (l : loc) : St World loc :=
  let! g := read_graph l in alloc_graph g.

(** [list(inps)] and [inps[:]] *)
Definition copy_list (l : loc) : St World loc :=
  let! v := read_list l in alloc_list v.

(** [len(graph.nodes)] and [len(inps)] *)
Definition len_nodes (l : loc) : St World nat :=
  let! g := read_graph l in ret (length g).
Definition len_list (l : loc) : St World nat :=
  let! v := read_list l in ret (length v).

(** A loop that threads local variables [t] and may [return] from the
    enclosing function ([inr]). *)
Fixpoint for_state {S A T R} (l : list A) (body : A -> T -> St S (T + R))
    (t : T) : St S (T + R) :=
  match l with
  | [] => ret (inl t)
  | x :: l' =>
      let! r := body x t in
      match r with
      | inl t' => for_state l' body t'
      | inr v => ret (inr v)
      end
  end.

(** [enumerate(l)] *)
Definition enumerate {A} (l : list A) : list (nat * A) := imap pair l.

(** [range(start, stop, step)] for a positive [step]. *)
Fixpoint range_from (n start stop step : nat) : list nat :=
  match n with
  | 0 => []
  | S n' =>
      if start <? stop then start :: range_from n' (start + step) stop step
      else []
  end.
Definition range3 (start stop step : nat) : list nat :=
  range_from stop start stop step.

(** [_get_placeholders]: the placeholder nodes, in graph order. *)
Definition _get_placeholders (g : Graph) : list Node :=
  List.filter (fun x => bool_decide (op x = placeholder)) g.

Record ReproState := mkReproState {
  graph : loc;
  inps : loc;
}.

(** ** The minifier *)

Section Minifier.

(** [module_fails(mod, inps)]: the failure predicate handed to [minifier],
    a function of the graph of the module and of the inputs. *)
Variable module_fails : Graph -> list Value -> bool.

(** The runtime behind [torch.fx.Interpreter]: the results of the nodes of
    a graph run on the given inputs, in graph order, or [None] when the run
    raises. *)
Variable execute : Graph -> list Value -> option (list Value).

(** [ConcreteProp(fail_f).propagate( *inps)]: every node that produced a
    value with a tensor in it records that value. *)
Definition propagate (fail_f inps : loc) : St World unit :=
  let! g := read_graph fail_f in
  let! args := read_list inps in
  match execute g args with
  | None => raise (RuntimeError "the interpreter raised")
  | Some results =>
      with_graph fail_f
        (put (imap (fun k n => from_option (run_node n) n (results !! k)) g))
  end.

(** [graph_fails]: count the query, lint the graph, ask the oracle. *)
Definition graph_fails (graph inps : loc) : St World bool :=
  modify count_query >>
  let! mod_graph := read_graph graph in
  (if lint mod_graph then ret tt
   else raise (RuntimeError "lint")) >>
  let! args := read_list inps in
  emit (Query mod_graph args) >>
  ret (module_fails mod_graph args).

Definition RawStrategy : Type := loc -> loc -> St World (option ReproState).
Definition Strategy : Type := ReproState -> St World (option ReproState).

(** [_register_strategy(strategy, name)], that is [new_func]. *)
Definition _register_strategy (strategy : RawStrategy) (name : string)
  : Strategy :=
  fun old_state =>
    print (StrategyLine name) >>
    let! graph_copy := deepcopy (graph old_state) in
    let! inps_copy := copy_list (inps old_state) in
    let! result := strategy graph_copy inps_copy in
    match result with
    | Some new_state =>
        let! new_nodes := len_nodes (graph new_state) in
        let! old_nodes := len_nodes (graph old_state) in
        let! new_inps := len_list (inps new_state) in
        let! old_inps := len_list (inps old_state) in
        (if new_nodes <? old_nodes
         then print (SuccessNodes old_nodes new_nodes)
         else if (new_nodes =? old_nodes) && (old_inps <? new_inps)
         then print (SuccessInps old_inps new_inps)
         else raise (RuntimeError "Success raised but no progress made?")) >>
        let! fails := graph_fails (graph new_state) (inps new_state) in
        if negb fails
        then print WarningLine >> ret None
        else ret (Some new_state)
    | None => print (FailLine name) >> ret None
    end.

(** *** Truncate suffix *)

(** [max(2**(math.floor(math.log2(n)) - 1), 1)].  For [n = 1] the power is
    [2**(-1) = 0.5] in Python and [0] here; the maximum with [1] is [1] in
    both. *)
Definition suffix_gap (n : nat) : nat :=
  Z.to_nat (Z.max (2 ^ (Z.log2 (Z.of_nat n) - 1)) 1).

(** [math.log2(0)] raises. *)
Definition check_log2 (n : nat) : St World unit :=
  if decide (n = 0) then raise ValueError else ret tt.

(** One turn of [for idx, node in enumerate(cur_graph.nodes)]; the local
    variables are [env] and [tested]. *)
Definition suffix_step (cur_graph cur_inps new_graph : loc) (gap : nat)
    (it : nat * Node) (vars : gmap nat nat * gset nat)
  : St World (gmap nat nat * gset nat + ReproState) :=
  let '(idx, node) := it in
  let '(env, tested) := vars in
  let! new_node := with_graph new_graph (node_copy node env) in
  let! r :=
    (if negb (bool_decide (op node ∈ [placeholder; output]))
        && (idx mod gap =? 0) && negb (bool_decide (idx ∈ tested))
     then
       let! output_node := with_graph new_graph (add_output [new_node]) in
       let! fails := graph_fails new_graph cur_inps in
       let! smaller :=
         (if fails
          then let! new_len := len_nodes new_graph in
               let! cur_len := len_nodes cur_graph in
               ret (new_len <? cur_len)
          else ret false) in
       if smaller then ret (inr (mkReproState new_graph cur_inps))
       else with_graph new_graph (erase_node output_node) >>
            ret (inl (tested ∪ {[idx]}))
     else ret (inl tested)) in
  match r with
  | inl tested' => ret (inl (<[name node := new_node]> env, tested'))
  | inr st => ret (inr st)
  end.

(** [while gap >= 1: ...; gap //= 2]; [Some] is a [return] from inside. *)
Fixpoint suffix_rounds (fuel : nat) (cur_graph cur_inps : loc) (gap : nat)
    (tested : gset nat) : St World (option ReproState) :=
  match fuel with
  | 0 => diverge
  | S fuel' =>
      if 1 <=? gap then
        let! new_graph := alloc_graph [] in
        let! nodes := read_graph cur_graph in
        let! r := for_state (enumerate nodes)
                    (suffix_step cur_graph cur_inps new_graph gap)
                    (∅, tested) in
        match r with
        | inl (_, tested') =>
            suffix_rounds fuel' cur_graph cur_inps (gap / 2) tested'
        | inr st => ret (Some st)
        end
      else ret None
  end.

Definition remove_suffix_body : RawStrategy :=
  fun cur_graph cur_inps =>
    let! n := len_nodes cur_graph in
    check_log2 n >>
    let gap := suffix_gap n in
    let! r := suffix_rounds (S gap) cur_graph cur_inps gap ∅ in
    match r with
    | Some st => ret (Some st)
    | None => print FailSuffixLine >> ret None
    end.

Definition remove_suffix : Strategy :=
  _register_strategy remove_suffix_body "Truncate suffix".

(** *** Remove unused inputs *)

(** [assert cond] *)
Definition assert (cond : bool) : St World unit :=
  if cond then ret tt else raise AssertionError.

(** One turn of [for idx in range(len(ph_nodes))]. *)
Definition unused_input_step (cur_graph cur_inps new_inps : loc)
    (ph_nodes : list Node) (idx : nat) : St World unit :=
  match ph_nodes !! idx with
  | None => raise Dangling
  | Some ph =>
      let! g := read_graph cur_graph in
      if length (users g (name ph)) =? 0
      then with_graph cur_graph (erase_node (name ph))
      else
        let! vs := read_list cur_inps in
        match vs !! idx with
        | None => raise Dangling
        | Some v => list_append new_inps v
        end
  end.

Definition remove_unused_inputs_body : RawStrategy :=
  fun cur_graph cur_inps =>
    let! g := read_graph cur_graph in
    let ph_nodes := _get_placeholders g in
    let! n_inps := len_list cur_inps in
    assert (length ph_nodes =? n_inps) >>
    let! new_inps := alloc_list [] in
    for_each (seq 0 (length ph_nodes))
      (unused_input_step cur_graph cur_inps new_inps ph_nodes) >>
    let! n_new := len_list new_inps in
    let! n_cur := len_list cur_inps in
    let! ok := (if n_new <? n_cur then graph_fails cur_graph new_inps
                else ret false) in
    if ok then ret (Some (mkReproState cur_graph new_inps)) else ret None.

Definition remove_unused_inputs : Strategy :=
  _register_strategy remove_unused_inputs_body "Remove unused inputs".

(** *** Eliminate dead code *)

Definition eliminate_dead_code_body : RawStrategy :=
  fun cur_graph cur_inps =>
    let! changed := with_graph cur_graph Fx.eliminate_dead_code in
    let! ok := (if changed then graph_fails cur_graph cur_inps
                else ret false) in
    if ok then ret (Some (mkReproState cur_graph cur_inps)) else ret None.

Definition eliminate_dead_code : Strategy :=
  _register_strategy eliminate_dead_code_body "Eliminate dead code".

(** *** Delta debugging *)

(** A loop that threads local variables. *)
Fixpoint fold_each {S A T} (l : list A) (body : A -> T -> St S T) (t : T)
  : St S T :=
  match l with
  | [] => ret t
  | x :: l' => let! t' := body x t in fold_each l' body t'
  end.

(** One of the two loops of [_consolidate_placeholders]: copy the nodes
    that satisfy [keep]; the local variable is [env]. *)
Definition consolidate_step (new_graph : loc) (keep : Node -> bool)
    (node : Node) (env : gmap nat nat) : St World (gmap nat nat) :=
  if keep node then
    let! new_node := with_graph new_graph (node_copy node env) in
    ret (<[name node := new_node]> env)
  else ret env.

Definition _consolidate_placeholders (cur_graph : loc) : St World loc :=
  let! new_graph := alloc_graph [] in
  let! nodes := read_graph cur_graph in
  let! env := fold_each nodes
                (consolidate_step new_graph
                   (fun node => bool_decide (op node = placeholder))) ∅ in
  let! nodes' := read_graph cur_graph in
  let! env' := fold_each nodes'
                 (consolidate_step new_graph
                    (fun node => bool_decide (op node <> placeholder))) env in
  ret new_graph.

(** One turn of [for idx in range(start_range, end_range)]; the local
    variable is [is_removing]. *)
Definition window_step (new_graph new_inps : loc) (idx : nat)
    (is_removing : bool) : St World bool :=
  let! nodes := read_graph new_graph in
  match nodes !! idx with
  | None => raise Dangling
  | Some new_node =>
      if negb (bool_decide (op new_node ∈ [placeholder; output]))
      then in_place new_graph new_inps
             (_convert_node_to_placeholder (name new_node)) >>
           ret true
      else ret is_removing
  end.

(** One turn of [for start_range in range(0, num_nodes, gap)]; [None] is
    [continue] or the end of the body, [Some] a [return]. *)
Definition window (cur_graph cur_inps : loc) (num_nodes gap start_range : nat)
  : St World (option ReproState) :=
  let! new_graph := deepcopy cur_graph in
  let! new_inps := copy_list cur_inps in
  let end_range := num_nodes `min` (start_range + gap) in
  let! is_removing :=
    fold_each (seq start_range (end_range - start_range))
      (window_step new_graph new_inps) false in
  if negb is_removing then ret None
  else
    let! new_graph := _consolidate_placeholders new_graph in
    let! fails := graph_fails new_graph new_inps in
    if fails then ret (Some (mkReproState new_graph new_inps))
    else ret None.

(** [for x in l], leaving at the first [return]. *)
Fixpoint first_return {S A R} (l : list A) (body : A -> St S (option R))
  : St S (option R) :=
  match l with
  | [] => ret None
  | x :: l' =>
      let! r := body x in
      match r with
      | Some v => ret (Some v)
      | None => first_return l' body
      end
  end.

Fixpoint delta_rounds (fuel : nat) (cur_graph cur_inps : loc)
    (num_nodes gap : nat) : St World (option ReproState) :=
  match fuel with
  | 0 => diverge
  | S fuel' =>
      if 1 <=? gap then
        let! r := first_return (range3 0 num_nodes gap)
                    (window cur_graph cur_inps num_nodes gap) in
        match r with
        | Some st => ret (Some st)
        | None => delta_rounds fuel' cur_graph cur_inps num_nodes (gap / 2)
        end
      else ret None
  end.

(** [int(2**math.floor(math.log2(num_nodes)))] *)
Definition delta_gap (num_nodes : nat) : nat := 2 ^ Nat.log2 num_nodes.

Definition delta_debugging_body : RawStrategy :=
  fun cur_graph cur_inps =>
    let! num_nodes := len_nodes cur_graph in
    check_log2 num_nodes >>
    let gap := delta_gap num_nodes in
    delta_rounds (S gap) cur_graph cur_inps num_nodes gap.

Definition delta_debugging : Strategy :=
  _register_strategy delta_debugging_body "Delta Debugging".

(** *** The driver *)

Definition strategies : list Strategy :=
  [ remove_suffix; eliminate_dead_code; remove_unused_inputs;
    delta_debugging; eliminate_dead_code; remove_unused_inputs ].

(** The local variables of the loop body: [failing_state],
    [any_succeeded], and the states assigned to [failing_state] during
    this pass, oldest first. *)
Record Pass := mkPass {
  failing_state : ReproState;
  any_succeeded : bool;
  assigned : list ReproState;
}.

(** [for strategy in strategies: ...] *)
Definition try_strategy (strategy : Strategy) (p : Pass) : St World Pass :=
  let! new_state := strategy (failing_state p) in
  match new_state with
  | Some st => ret (mkPass st true (assigned p ++ [st]))
  | None => ret p
  end.

Definition run_pass (ss : list Strategy) (st : ReproState) : St World Pass :=
  fold_each ss try_strategy (mkPass st false []).

(** [while True: ...], with a bound on the number of passes; the result is
    [failing_state] at the [break], with the states assigned to it in each
    pass. *)
Fixpoint minify_loop (passes : nat) (st : ReproState)
  : St World (ReproState * list (list ReproState)) :=
  match passes with
  | 0 => diverge
  | S passes' =>
      let! p := run_pass strategies st in
      if negb (any_succeeded p) then ret (failing_state p, [assigned p])
      else
        let! r := minify_loop passes' (failing_state p) in
        ret (fst r, assigned p :: snd r)
  end.

(** [minifier(fail_f, inps, module_fails)]; [fail_f] stands for
    [fail_f.graph].  The module it returns is given by its graph. *)
Definition minifier (passes : nat) (fail_f inps : loc) : St World (loc * loc) :=
  let failing_graph := fail_f in
  let! cur_size := len_nodes failing_graph in
  propagate fail_f inps >>
  let! fails := graph_fails failing_graph inps in
  (if negb fails
   then raise (RuntimeError "Input graph did not fail the tester")
   else ret tt) >>
  print (StartedOff cur_size) >>
  let! r := minify_loop passes (mkReproState failing_graph inps) in
  let '(mkReproState final_graph final_inps) := fst r in
  let! nq := (fun w => Ret (num_queries w) w) in
  print (MadeQueries nq) >>
  let failing_fx := final_graph in
  let! g := read_graph failing_fx in
  let! vs := read_list final_inps in
  emit (Repro g vs) >>
  ret (failing_fx, inps).

End Minifier.

(** ** Vocabulary of the properties *)

Definition busy (n : Node) : bool := negb (bool_decide (args n = [])).
Definition busy_other (i : nat) (n : Node) : bool := negb (has_name i n) && busy n.
Definition pending (g : Graph) (i : nat) : nat := length (List.filter (busy_other i) g).
Definition shrinks (g' g : Graph) : Prop :=
  Forall2 (fun n' n => name n' = name n /\ (args n' = args n \/ args n' = [])) g' g.

Definition converted (i : nat) (s : Conv) : Conv :=
  (update_node i as_placeholder (fst s), snd s).

Definition total (g : Graph) : nat := length (List.filter busy g).

Definition quiet (e : Event) : Prop :=
  match e with
  | Print (StrategyLine _) => False
  | Query g _ => lint g = true
  | _ => True
  end.

Record evolves (gb lb : nat) (w w' : World) : Prop := mkEvolves {
  ev_graphs : take gb (graphs w') = take gb (graphs w);
  ev_lists : take lb (lists w') = take lb (lists w);
  ev_glen : length (graphs w) <= length (graphs w');
  ev_llen : length (lists w) <= length (lists w');
  ev_trace : exists evs, trace w' = trace w ++ evs /\ Forall quiet evs;
}.

Definition safe (gb lb : nat) {A} (m : St World A) (Q : A -> Prop) : Prop :=
  forall w, gb <= length (graphs w) -> lb <= length (lists w) ->
  forall a w', m w = Ret a w' -> Q a /\ evolves gb lb w w'.

Definition fresh_state (gb lb : nat) (r : option ReproState) : Prop :=
  forall st, r = Some st -> gb <= graph st /\ lb <= inps st.

Definition fresh_or_continue (gb lb : nat) {T} (r : T + ReproState) : Prop :=
  match r with inl _ => True | inr st => gb <= graph st /\ lb <= inps st end.

Definition sizes (w : World) (st : ReproState) : option (nat * nat) :=
  match graphs w !! graph st, lists w !! inps st with
  | Some g, Some v => Some (length g, length v)
  | _, _ => None
  end.

(** [new_nodes < old_nodes or (new_nodes == old_nodes and new_inps > old_inps)] *)
Definition progress (old new : nat * nat) : Prop :=
  new.1 < old.1 \/ (new.1 = old.1 /\ old.2 < new.2).

Definition smaller (w : World) (new old : ReproState) : Prop :=
  exists sn so, sizes w new = Some sn /\ sizes w old = Some so /\ progress so sn.

Definition started (name : string) (g : Graph) (v : list Value) (w : World)
  : World :=
  set_lists (fun h => h ++ [v])
    (set_graphs (fun h => h ++ [g]) (log (Print (StrategyLine name)) w)).

Definition success_line (old new : nat * nat) : Line :=
  if new.1 <? old.1 then SuccessNodes old.1 new.1
  else SuccessInps old.2 new.2.

Definition reproduces (module_fails : Graph -> list Value -> bool)
    (w : World) (st : ReproState) : Prop :=
  exists g v, graphs w !! graph st = Some g /\ lists w !! inps st = Some v /\
              lint g = true /\ module_fails g v = true.

(** What [new_func] does once [strategy] has returned. *)
Definition judge (module_fails : Graph -> list Value -> bool)
    (name : string) (old_state : ReproState)
    (result : option ReproState) : St World (option ReproState) :=
  match result with
  | Some new_state =>
      let! new_nodes := len_nodes (graph new_state) in
      let! old_nodes := len_nodes (graph old_state) in
      let! new_inps := len_list (inps new_state) in
      let! old_inps := len_list (inps old_state) in
      (if new_nodes <? old_nodes
       then print (SuccessNodes old_nodes new_nodes)
       else if (new_nodes =? old_nodes) && (old_inps <? new_inps)
       then print (SuccessInps old_inps new_inps)
       else raise (RuntimeError "Success raised but no progress made?")) >>
      let! fails := graph_fails module_fails (graph new_state) (inps new_state) in
      if negb fails
      then print WarningLine >> ret None
      else ret (Some new_state)
  | None => print (FailLine name) >> ret None
  end.

(** Every object of [w] is still there, unchanged, in [w']. *)
Definition preserved (w w' : World) : Prop :=
  take (length (graphs w)) (graphs w') = graphs w /\
  take (length (lists w)) (lists w') = lists w.

Definition linted (e : Event) : Prop :=
  match e with Query g _ => lint g = true | _ => True end.

(** The lines a run has printed, in order. *)
Definition printed (evs : list Event) : list Line :=
  omap (fun e => match e with Print l => Some l | _ => None end) evs.

Definition strategy_names (evs : list Event) : list string :=
  omap (fun e => match e with Print (StrategyLine n) => Some n | _ => None end)
    evs.

Definition well_behaved (strategy : loc -> loc -> St World (option ReproState))
  : Prop :=
  forall gb lb (gl il : loc), gb <= gl -> lb <= il ->
    safe gb lb (strategy gl il) (fresh_state gb lb).

Fixpoint descending (w : World) (st : ReproState) (l : list ReproState)
  : Prop :=
  match l with
  | [] => True
  | x :: l' => smaller w x st /\ descending w x l'
  end.

Definition last_state (st : ReproState) (l : list ReproState) : ReproState :=
  List.last l st.

Definition strategy_order : list string :=
  [ "Truncate suffix"; "Eliminate dead code"; "Remove unused inputs";
    "Delta Debugging"; "Eliminate dead code"; "Remove unused inputs" ]%string.

Definition wrapped (module_fails : Graph -> list Value -> bool)
    (S : ReproState -> St World (option ReproState)) (name : string) : Prop :=
  forall old w r w', S old w = Ret r w' ->
    preserved w w' /\
    (exists evs, trace w' = trace w ++ Print (StrategyLine name) :: evs /\
                 Forall quiet evs) /\
    is_Some (sizes w old) /\
    (forall new, r = Some new ->
       smaller w' new old /\ reproduces module_fails w' new).

(** ** Concrete graphs, oracles and runs *)

Module Demo.

(** Every node evaluates to a tensor. *)
Definition all_tensors (g : Graph) (_ : list Value) : option (list Value) :=
  Some (map (fun n => Tensor (Z.of_nat (name n))) g).

(** The failure needs the call of payload [f] to be there. *)
Definition calls (f : nat) (g : Graph) : bool :=
  existsb (fun n => bool_decide (op n = call_function)
                    && bool_decide (target n = Payload f)) g.

(** [x, y = placeholders; a = f10(x); return a]: the input [y] is unused. *)
Definition unused_input : Graph :=
  [ mkNode 0 placeholder (Named 0) [] (Some (Tensor 0));
    mkNode 1 placeholder (Named 1) [] (Some (Tensor 1));
    mkNode 2 call_function (Payload 10) [0] (Some (Tensor 2));
    mkNode 3 output (Named 3) [2] (Some (Tensor 3)) ].

(** The module fails when it is given as many inputs as it has
    placeholders and still calls [f10]. *)
Definition fails_on_f10 (g : Graph) (inps : list Value) : bool :=
  bool_decide (length inps = count_placeholders g) && calls 10 g.

Definition two_inputs : World :=
  mkWorld [unused_input] [[Tensor 100; Tensor 101]] 0 [].

Definition pair : Value := Aggregate [Tensor 1; Tensor 2].

(** [x = placeholder; a = f10(x); b = f11(a); c = f12(a, b); return c],
    where [a] and [b] evaluate to pairs of tensors and [c] to a tensor. *)
Definition diamond : Graph :=
  [ mkNode 0 placeholder (Named 0) [] (Some (Tensor 7));
    mkNode 1 call_function (Payload 10) [0] (Some pair);
    mkNode 2 call_function (Payload 11) [1] (Some pair);
    mkNode 3 call_function (Payload 12) [1; 2] (Some (Tensor 9));
    mkNode 4 output (Named 4) [3] None ].

(** [x = placeholder; s = f10(x); y = f11(x, s); return y], where [s]
    evaluates to an integer. *)
Definition with_size : Graph :=
  [ mkNode 0 placeholder (Named 0) [] None;
    mkNode 1 call_function (Payload 10) [0] None;
    mkNode 2 call_function (Payload 11) [0; 1] None;
    mkNode 3 output (Named 3) [2] None ].

Definition size_is_int (g : Graph) (_ : list Value) : option (list Value) :=
  Some (map (fun n => if bool_decide (target n = Payload 10) then Other 3
                      else Tensor (Z.of_nat (name n))) g).

Definition fails_on_f11 (g : Graph) (_ : list Value) : bool := calls 11 g.

Definition one_input (g : Graph) : World :=
  mkWorld [g] [[Tensor 100]] 0 [].

(** The run of the driver loop on [unused_input]. *)
Definition loop_run : Res World (ReproState * list (list ReproState)) :=
  Eval vm_compute in
    minify_loop fails_on_f10 5 (mkReproState 0 0) two_inputs.

(** The run of the minifier on [unused_input]. *)
Definition minifier_run : Res World (nat * nat) :=
  Eval vm_compute in minifier fails_on_f10 all_tensors 5 0 0 two_inputs.

(** [x = placeholder; return x] *)
Definition returns_input : Graph :=
  [ mkNode 0 placeholder (Named 0) [] (Some (Tensor 0));
    mkNode 1 output (Named 1) [0] (Some (Tensor 0)) ].

(** The failure needs the output node to be there. *)
Definition has_output (g : Graph) (_ : list Value) : bool :=
  existsb (fun n => bool_decide (op n = output)) g.

(** A strategy that drops the last node of the graph and returns the
    result without asking the oracle. *)
Definition drop_last (cur_graph cur_inps : loc)
  : St World (option ReproState) :=
  with_graph cur_graph (modify (fun g => removelast g)) >>
  ret (Some (mkReproState cur_graph cur_inps)).

(** [unused_input] with three inputs for its two placeholders. *)
Definition three_inputs : World :=
  mkWorld [unused_input] [[Tensor 100; Tensor 101; Tensor 102]] 0 [].

Definition fails_with_f10 (g : Graph) (_ : list Value) : bool := calls 10 g.


(** The world in which a run ends. *)
Definition final_world {A} (r : Res World A) : World :=
  match r with
  | Ret _ w | Raise _ w => w
  | Diverge => mkWorld [] [] 0 []
  end.

(** The run of the minifier on [with_size]. *)
Definition size_run : Res World (nat * nat) :=
  Eval vm_compute in
    minifier fails_on_f11 size_is_int 5 0 0 (one_input with_size).

(** The run of the minifier on [three_inputs]. *)
Definition three_inputs_run : Res World (nat * nat) :=
  Eval vm_compute in minifier fails_with_f10 all_tensors 5 0 0 three_inputs.

(** [with_size] after value propagation. *)
Definition size_propagated : World :=
  Eval vm_compute in
    final_world (propagate size_is_int 0 0 (one_input with_size)).

(** An oracle that does not fail on [with_size]. *)
Definition fails_on_f12 (g : Graph) (_ : list Value) : bool := calls 12 g.

(** [size_propagated] after the first query of that oracle. *)
Definition size_queried : World :=
  Eval vm_compute in
    final_world (graph_fails fails_on_f12 0 0 size_propagated).

(** A strategy that returns the state it was given, untouched. *)
Definition keep_all (cur_graph cur_inps : loc)
  : St World (option ReproState) :=
  ret (Some (mkReproState cur_graph cur_inps)).

(** [x = placeholder; a = f10(x); b = f11(a); c = f12(b); d = f13(c);
    return d] *)
Definition chain : Graph :=
  [ mkNode 0 placeholder (Named 0) [] (Some (Tensor 0));
    mkNode 1 call_function (Payload 10) [0] (Some (Tensor 1));
    mkNode 2 call_function (Payload 11) [1] (Some (Tensor 2));
    mkNode 3 call_function (Payload 12) [2] (Some (Tensor 3));
    mkNode 4 call_function (Payload 13) [3] (Some (Tensor 4));
    mkNode 5 output (Named 5) [4] None ].

(** A module that never fails. *)
Definition never_fails (_ : Graph) (_ : list Value) : bool := false.

(** Truncate-suffix on [chain] when no cut makes the module fail. *)
Definition chain_run : Res World (option ReproState) :=
  Eval vm_compute in remove_suffix_body never_fails 0 0 (one_input chain).

(** [x = placeholder; a = f10(x); y = placeholder; return a]: the input
    [y] comes after a call. *)
Definition late_input : Graph :=
  [ mkNode 0 placeholder (Named 0) [] (Some (Tensor 0));
    mkNode 1 call_function (Payload 10) [0] (Some (Tensor 1));
    mkNode 2 placeholder (Named 2) [] (Some (Tensor 2));
    mkNode 3 output (Named 3) [1] None ].



(** Remove-unused-inputs on [unused_input]. *)
Definition unused_run : Res World (option ReproState) :=
  Eval vm_compute in remove_unused_inputs_body fails_on_f10 0 0 two_inputs.

(** [x = placeholder; a = f10(x); b = f11(a); return a]: [b] is dead. *)
Definition dead_code : Graph :=
  [ mkNode 0 placeholder (Named 0) [] (Some (Tensor 0));
    mkNode 1 call_function (Payload 10) [0] (Some (Tensor 1));
    mkNode 2 call_function (Payload 11) [1] (Some (Tensor 2));
    mkNode 3 output (Named 3) [1] None ].

(** Eliminate-dead-code on [dead_code]. *)
Definition dead_run : Res World (option ReproState) :=
  Eval vm_compute in
    eliminate_dead_code_body fails_on_f10 0 0 (one_input dead_code).

End Demo.

(** ** Vocabulary of the truncate-suffix strategy *)

(** The graph cut after the node at [idx]: the nodes up to that one, and a
    new output node that returns it. *)
Definition truncate (g : Graph) (idx : nat) : Graph :=
  let kept := take (S idx) g in
  kept ++ [mkNode (fresh_name kept) output (Named (fresh_name kept))
             (from_option (fun n => [name n]) [] (g !! idx)) None].

(** A cut point: a node that is neither a placeholder nor an output. *)
Definition cut_point (g : Graph) (idx : nat) : bool :=
  match g !! idx with
  | Some node => negb (bool_decide (op node ∈ [placeholder; output]))
  | None => false
  end.

(** The cut points tried at stride [gap] when those of [tested] have been
    tried before: the multiples of [gap], in order. *)
Definition candidates (g : Graph) (gap : nat) (tested : gset nat) : list nat :=
  List.filter
    (fun idx => cut_point g idx && (idx mod gap =? 0)
                && negb (bool_decide (idx ∈ tested)))
    (seq 0 (length g)).

(** The cut points in the order in which they are tried: stride after
    stride, each stride half of the one before, down to one. *)
Fixpoint schedule (rounds : nat) (g : Graph) (gap : nat) (tested : gset nat)
  : list nat :=
  match rounds with
  | 0 => []
  | S rounds' =>
      if 1 <=? gap then
        let tried := candidates g gap tested in
        tried ++ schedule rounds' g (gap / 2) (tested ∪ list_to_set tried)
      else []
  end.

Definition suffix_schedule (g : Graph) : list nat :=
  schedule (S (suffix_gap (length g))) g (suffix_gap (length g)) ∅.

(** The cut points tried until one is accepted, that one included, and the
    one accepted. *)
Fixpoint probe (accept : nat -> bool) (todo : list nat)
  : list nat * option nat :=
  match todo with
  | [] => ([], None)
  | idx :: todo' =>
      if accept idx then ([idx], Some idx)
      else let r := probe accept todo' in (idx :: fst r, snd r)
  end.

(** ** The driver, in the words of the specification *)

(** One pass: the strategies are applied one after the other, each to the
    state held at that moment; a strategy that returns a new state replaces
    the state held.  The flag tells whether some strategy returned one. *)
Inductive applies
  : list Strategy -> ReproState -> World -> ReproState -> bool -> World -> Prop :=
| applies_nil st w : applies [] st w st false w
| applies_keep S ss st w w1 st' b w' :
    S st w = Ret None w1 ->
    applies ss st w1 st' b w' ->
    applies (S :: ss) st w st' b w'
| applies_take S ss st w new w1 st' b w' :
    S st w = Ret (Some new) w1 ->
    applies ss new w1 st' b w' ->
    applies (S :: ss) st w st' true w'.

(** Passes are repeated as long as they make progress; the state held
    after the first pass without progress is the result. *)
Inductive minimizes (order : list Strategy)
  : ReproState -> World -> ReproState -> World -> Prop :=
| minimizes_done st w st' w' :
    applies order st w st' false w' ->
    minimizes order st w st' w'
| minimizes_again st w st1 w1 st' w' :
    applies order st w st1 true w1 ->
    minimizes order st1 w1 st' w' ->
    minimizes order st w st' w'.

(** A cut is accepted when the oracle fails on the graph cut there and that
    graph has fewer nodes than the graph it was cut from. *)
Definition accepts (module_fails : Graph -> list Value -> bool)
    (g : Graph) (vs : list Value) (idx : nat) : bool :=
  module_fails (truncate g idx) vs && (length (truncate g idx) <? length g).

(** The world after the cuts at [tried] have been put to the oracle, one
    query each, while the graph object at [new_graph] holds [content]. *)
Definition probed (g : Graph) (vs : list Value) (new_graph : loc)
    (content : Graph) (tried : list nat) (w : World) : World :=
  mkWorld (<[new_graph := content]> (graphs w)) (lists w)
    (length tried + num_queries w)
    (trace w ++ ((fun idx => Query (truncate g idx) vs) <$> tried)).

(** What trying the cuts [tried] leaves behind in a world that was [w]:
    the objects of [w] are as they were, and one query for each cut was
    counted and recorded, in the order of [tried]. *)
Definition after_cuts (g : Graph) (vs : list Value) (tried : list nat)
    (w w' : World) : Prop :=
  preserved w w' /\
  num_queries w' = length tried + num_queries w /\
  trace w' = trace w ++ ((fun idx => Query (truncate g idx) vs) <$> tried).

(** Every node of [g'] is the node of [g] at the same place, as it was or
    rewritten into a placeholder. *)
Definition rewritten (g' g : Graph) : Prop :=
  Forall2 (fun n' n =>
             n' = n \/
             n' = mkNode (name n) placeholder (Named (name n)) []
                    (concrete_value n)) g' g.

(** The graph keeps its nodes and the list of inputs its elements. *)
Definition kept (s' s : Conv) : Prop :=
  rewritten (fst s') (fst s) /\ snd s `prefix_of` snd s'.


(** The state of remove-unused-inputs after [k] placeholders: [G] is what
    is left of the graph [g], [acc] the inputs kept so far; what was
    erased from the graph is not less than what was not kept, and the
    placeholders still to come are still there. *)
Definition unused_inv (g : Graph) (vs : list Value) (ph_nodes : list Node)
    (cur_graph cur_inps new_inps : loc) (k : nat) (w : World) : Prop :=
  exists G acc,
    graphs w !! cur_graph = Some G /\ lists w !! new_inps = Some acc /\
    lists w !! cur_inps = Some vs /\
    length G + k <= length g + length acc /\
    forall j n, k <= j -> ph_nodes !! j = Some n -> n ∈ G.

(** * Properties *)

Lemma bind_unfold {S A B} (m : St S A) (k : A -> St S B) s :
  bind m k s = match m s with Ret a s' => k a s' | Raise e s' => Raise e s' | Diverge => Diverge end.
Proof. reflexivity. Qed.

Lemma for_each_ext {S A} (P : S -> Prop) (l : list A) (f f' : A -> St S unit) s :
  P s ->
  (forall x s, x ∈ l -> P s -> f x s = f' x s) ->
  (forall x s s', x ∈ l -> P s -> f' x s = Ret tt s' -> P s') ->
  for_each l f s = for_each l f' s.
Proof.
  revert s. induction l as [|x l IH]; intros s HP Hext Hpres; [done|].
  simpl. rewrite !bind_unfold, (Hext x s) by (done || left).
  destruct (f' x s) as [[] s'| |] eqn:E; try done.
  apply IH.
  - eapply Hpres; [left|done|done].
  - intros y t Hy. apply Hext. by right.
  - intros y t t' Hy. apply Hpres. by right.
Qed.

Lemma convert_S d i s :
  convert (S d) i s =
  match find_node (fst s) i with
  | None => Raise Dangling s
  | Some node =>
      if decide (op node = output) then Ret tt s
      else match concrete_value node with
           | None => Raise KeyError (converted i s)
           | Some cv =>
               if is_tensor cv
               then Ret tt (fst (converted i s), snd s ++ [cv])
               else for_each (users (fst (converted i s)) i) (convert d)
                      (fst (converted i s), snd s ++ [torch_zeros])
           end
  end.
Proof.
  simpl. unfold bind at 1, the_node.
  destruct (find_node (fst s) i) as [node|]; [|done].
  destruct (decide (op node = output)); [done|].
  unfold bind, set_placeholder, modify, meta_concrete_value.
  destruct (concrete_value node) as [cv|]; [|done].
  simpl. destruct (is_tensor cv); done.
Qed.

Lemma shrinks_refl g : shrinks g g.
Proof. apply Forall2_same_length_lookup_2; [done|]. intros k n n' H1 H2. rewrite H1 in H2. injection H2 as <-. eauto. Qed.

Lemma shrinks_trans g1 g2 g3 : shrinks g1 g2 -> shrinks g2 g3 -> shrinks g1 g3.
Proof.
  intros H12 H23. eapply Forall2_trans; [|done..].
  intros a b c [E1 H1] [E2 H2]. split; [congruence|].
  destruct H1 as [-> | ->]; auto.
Qed.

Lemma shrinks_update i g : shrinks (update_node i as_placeholder g) g.
Proof.
  unfold update_node. induction g as [|n g IH]; [constructor|].
  rewrite fmap_cons. constructor; [|done].
  destruct (has_name i n); simpl; auto.
Qed.

Lemma shrinks_length g' g : shrinks g' g -> length g' = length g.
Proof. apply Forall2_length. Qed.

Lemma pending_mono g' g i : shrinks g' g -> pending g' i <= pending g i.
Proof.
  unfold pending. induction 1 as [|n' n g' g [Hn Ha] _ IH]; [done|].
  simpl. unfold busy_other, busy, has_name in *. rewrite Hn.
  destruct Ha as [-> | ->].
  - destruct (_ && _); simpl; lia.
  - simpl. rewrite andb_false_r.
    destruct (_ && _); simpl; lia.
Qed.

Lemma pending_le_length g i : pending g i <= length g.
Proof.
  unfold pending. induction g as [|n g IH]; simpl; [done|].
  destruct (busy_other i n); simpl; lia.
Qed.

Lemma total_le_length g : total g <= length g.
Proof.
  unfold total. induction g as [|n g IH]; simpl; [done|].
  destruct (busy n); simpl; lia.
Qed.

Lemma total_update i g : total (update_node i as_placeholder g) = pending g i.
Proof.
  unfold total, pending, update_node. induction g as [|n g IH]; [done|].
  rewrite fmap_cons. simpl. unfold busy_other at 1.
  destruct (has_name i n); simpl; [done|].
  destruct (busy n); simpl; congruence.
Qed.

Lemma user_pending g i u : u ∈ users g i -> S (pending g u) <= total g.
Proof.
  unfold users, total, pending. induction g as [|n g IH]; simpl.
  - by intros ?%elem_of_nil.
  - unfold busy_other at 1. destruct (uses i n) eqn:Hu.
    + rewrite fmap_cons. intros [->|Hin]%elem_of_cons.
      * assert (busy n = true) as ->.
        { unfold busy. unfold uses in Hu. apply bool_decide_eq_true in Hu.
          destruct (args n); [by apply elem_of_nil in Hu|done]. }
        unfold has_name. rewrite bool_decide_eq_true_2 by done. simpl.
        pose proof (pending_mono g g (name n) (shrinks_refl g)).
        clear. induction g as [|m g IH]; simpl; [lia|].
        unfold busy_other at 1. destruct (has_name _ m); simpl;
          destruct (busy m); simpl; lia.
      * specialize (IH Hin). destruct (negb _ && busy n) eqn:E; simpl.
        -- apply andb_true_iff in E as [_ ->]. simpl. lia.
        -- destruct (busy n); simpl; lia.
    + intros Hin. specialize (IH Hin).
      destruct (negb _ && busy n) eqn:E; simpl.
      -- apply andb_true_iff in E as [_ ->]. simpl. lia.
      -- destruct (busy n); simpl; lia.
Qed.

Lemma for_each_shrinks (l : list nat) (f : nat -> St Conv unit) s s' :
  (forall x t t', f x t = Ret tt t' -> shrinks (fst t') (fst t)) ->
  for_each l f s = Ret tt s' -> shrinks (fst s') (fst s).
Proof.
  intros Hf. revert s. induction l as [|x l IH]; intros s; simpl.
  - intros [= <-]. apply shrinks_refl.
  - rewrite bind_unfold. destruct (f x s) as [[] t| |] eqn:E; try done.
    intros H. eapply shrinks_trans; [by apply IH|by eapply Hf].
Qed.

Lemma convert_shrinks d i s s' :
  convert d i s = Ret tt s' -> shrinks (fst s') (fst s).
Proof.
  revert i s s'. induction d as [|d IH]; intros i s s'; [done|].
  rewrite convert_S. destruct (find_node (fst s) i) as [node|]; [|done].
  destruct (decide _); [intros [= <-]; apply shrinks_refl|].
  destruct (concrete_value node) as [cv|]; [|done].
  destruct (is_tensor cv).
  - intros [= <-]. simpl. apply shrinks_update.
  - intros H%for_each_shrinks; [|by intros; eapply IH].
    simpl in H. eapply shrinks_trans; [done|apply shrinks_update].
Qed.

Lemma convert_depth d d' i s :
  pending (fst s) i < d -> pending (fst s) i < d' ->
  convert d i s = convert d' i s.
Proof.
  revert d' i s. induction d as [|d IH]; intros [|d'] i s Hd Hd'; try lia.
  rewrite !convert_S. destruct (find_node (fst s) i) as [node|]; [|done].
  destruct (decide _); [done|].
  destruct (concrete_value node) as [cv|]; [|done].
  destruct (is_tensor cv); [done|].
  set (g1 := fst (converted i s)).
  apply (for_each_ext (fun t => shrinks (fst t) g1)).
  - apply shrinks_refl.
  - intros u t Hu Ht.
    pose proof (user_pending _ _ _ Hu) as H1.
    pose proof (pending_mono _ _ u Ht) as H2.
    subst g1. simpl in H1. rewrite total_update in H1.
    apply IH; simpl in *; lia.
  - intros u t t' _ Ht Hc. eapply shrinks_trans; [by eapply convert_shrinks|done].
Qed.

Lemma for_each_terminates {S A} (P : S -> Prop) (l : list A) (f : A -> St S unit) s :
  P s ->
  (forall x s, x ∈ l -> P s -> f x s <> Diverge) ->
  (forall x s s', x ∈ l -> P s -> f x s = Ret tt s' -> P s') ->
  for_each l f s <> Diverge.
Proof.
  revert s. induction l as [|x l IH]; intros s HP Hne Hpres; [done|].
  simpl. rewrite bind_unfold.
  destruct (f x s) as [[] s'| |] eqn:E; try done.
  - apply IH.
    + eapply Hpres; [left|done|done].
    + intros y t Hy. apply Hne. by right.
    + intros y t t' Hy. apply Hpres. by right.
  - exfalso. eapply Hne; [left|done|done].
Qed.

Lemma convert_terminates d i s :
  pending (fst s) i < d -> convert d i s <> Diverge.
Proof.
  revert i s. induction d as [|d IH]; intros i s Hd; [lia|].
  rewrite convert_S. destruct (find_node (fst s) i) as [node|]; [|done].
  destruct (decide _); [done|].
  destruct (concrete_value node) as [cv|]; [|done].
  destruct (is_tensor cv); [done|].
  set (g1 := fst (converted i s)).
  apply (for_each_terminates (fun t => shrinks (fst t) g1)).
  - apply shrinks_refl.
  - intros u t Hu Ht.
    pose proof (user_pending _ _ _ Hu) as H1.
    pose proof (pending_mono _ _ u Ht) as H2.
    subst g1. simpl in H1. rewrite total_update in H1.
    apply IH; simpl in *; lia.
  - intros u t t' _ Ht Hc. eapply shrinks_trans; [by eapply convert_shrinks|done].
Qed.

Lemma update_node_as_placeholder i g :
  update_node i as_placeholder g =
  (fun n => if bool_decide (name n = i)
            then mkNode i placeholder (Named i) [] (concrete_value n)
            else n) <$> g.
Proof.
  unfold update_node. apply list_fmap_ext. intros _ n _.
  unfold has_name, as_placeholder. by case_bool_decide; subst.
Qed.

(** What one call of [_convert_node_to_placeholder] does, for every graph
    and every node of it.  The call always returns or raises.  On an output
    node nothing changes.  Any other node is first rewritten in place: its
    kind becomes [placeholder], its operands are cleared and its target is
    its own name.  Then, if no value was recorded for it, [KeyError] is
    raised with the node rewritten and nothing appended; if the recorded
    value is a tensor, it is appended; otherwise a zero scalar is appended
    and the consumers the node has at that moment are converted in turn. *)
Theorem convert_node_to_placeholder_cases
    (i : nat) (g : Graph) (inps : list Value) (node : Node) :
  find_node g i = Some node ->
  let run := _convert_node_to_placeholder i (g, inps) in
  let g1 := (fun n => if bool_decide (name n = i)
                      then mkNode i placeholder (Named i) [] (concrete_value n)
                      else n) <$> g in
  run <> Diverge /\
  if decide (op node = output) then run = Ret tt (g, inps)
  else match concrete_value node with
       | None => run = Raise KeyError (g1, inps)
       | Some cv =>
           if is_tensor cv then run = Ret tt (g1, inps ++ [cv])
           else run = for_each (users g1 i) _convert_node_to_placeholder
                        (g1, inps ++ [torch_zeros])
       end.
Proof.
  intros Hnode run g1. split.
  { apply convert_terminates. simpl. pose proof (pending_le_length g i). lia. }
  subst run g1. rewrite <- update_node_as_placeholder.
  assert (_convert_node_to_placeholder i (g, inps) = convert (S (length g)) i (g, inps))
    as -> by done.
  rewrite convert_S. simpl. rewrite Hnode.
  destruct (decide _); [done|].
  destruct (concrete_value node) as [cv|]; [|done].
  destruct (is_tensor cv); [done|].
  apply (for_each_ext (fun t => shrinks (fst t) (update_node i as_placeholder g))).
  - apply shrinks_refl.
  - intros u t Hu Ht. unfold _convert_node_to_placeholder.
    pose proof (user_pending _ _ _ Hu) as H1.
    pose proof (pending_mono _ _ u Ht) as H2.
    rewrite total_update in H1.
    pose proof (pending_le_length g i).
    pose proof (pending_le_length (fst t) u).
    apply convert_depth; lia.
  - intros u t t' _ Ht Hc. eapply shrinks_trans; [by eapply convert_shrinks|done].
Qed.

Lemma evolves_refl gb lb w : evolves gb lb w w.
Proof. split; try done. exists []. by rewrite app_nil_r. Qed.

Lemma evolves_trans gb lb w1 w2 w3 :
  evolves gb lb w1 w2 -> evolves gb lb w2 w3 -> evolves gb lb w1 w3.
Proof.
  intros [G1 L1 g1 l1 (e1 & T1 & Q1)] [G2 L2 g2 l2 (e2 & T2 & Q2)].
  split; try congruence; try lia.
  exists (e1 ++ e2). rewrite T2, T1, app_assoc. split; [done|].
  by apply Forall_app.
Qed.

Section Safe.
Context (gb lb : nat).

Lemma safe_ret {A} (a : A) : safe gb lb (ret a) (fun x => x = a).
Proof. intros w _ _ ? ? [= <- <-]. split; [done|apply evolves_refl]. Qed.

Lemma safe_bind {A B} (m : St World A) (k : A -> St World B) Q R :
  safe gb lb m Q -> (forall a, Q a -> safe gb lb (k a) R) ->
  safe gb lb (bind m k) R.
Proof.
  intros Hm Hk w Hg Hl b w'. unfold bind.
  destruct (m w) as [a w1| |] eqn:E; try done.
  destruct (Hm w Hg Hl a w1 E) as [HQ Hev]. intros Hb.
  destruct (Hk a HQ w1) with (3 := Hb) as [HR Hev']; [destruct Hev; lia..|].
  split; [done|]. by eapply evolves_trans.
Qed.

Lemma safe_weaken {A} (m : St World A) (Q Q' : A -> Prop) :
  safe gb lb m Q -> (forall a, Q a -> Q' a) -> safe gb lb m Q'.
Proof. intros Hm HQ w Hg Hl a w' E. destruct (Hm w Hg Hl a w' E). auto. Qed.

Lemma safe_true {A} (m : St World A) (Q : A -> Prop) :
  safe gb lb m Q -> safe gb lb m (fun _ => True).
Proof. intros H. by eapply safe_weaken. Qed.

Lemma safe_raise {A} e (Q : A -> Prop) : safe gb lb (raise e) Q.
Proof. by intros w _ _ ? ?. Qed.

Lemma safe_diverge {A} (Q : A -> Prop) : safe gb lb diverge Q.
Proof. by intros w _ _ ? ?. Qed.

Lemma safe_pure {A} (f : World -> A) : safe gb lb (fun w => Ret (f w) w) (fun _ => True).
Proof. intros w _ _ ? ? [= <- <-]. split; [done|apply evolves_refl]. Qed.

Lemma safe_emit e : quiet e -> safe gb lb (emit e) (fun _ => True).
Proof.
  intros He w _ _ ? ? [= <- <-]. split; [done|]. split; simpl; try done.
  exists [e]. split; [done|]. by constructor.
Qed.

Lemma safe_alloc_graph g : safe gb lb (alloc_graph g) (fun l => gb <= l).
Proof.
  intros w Hg _ ? ? [= <- <-]. split; [done|]. split; simpl; try done.
  - by rewrite take_app_le.
  - rewrite length_app. lia.
  - exists []. by rewrite app_nil_r.
Qed.

Lemma safe_alloc_list v : safe gb lb (alloc_list v) (fun l => lb <= l).
Proof.
  intros w _ Hl ? ? [= <- <-]. split; [done|]. split; simpl; try done.
  - by rewrite take_app_le.
  - rewrite length_app. lia.
  - exists []. by rewrite app_nil_r.
Qed.

Lemma safe_read_graph (l : loc) : safe gb lb (read_graph l) (fun _ => True).
Proof.
  intros w _ _ a w'. unfold read_graph. destruct (graphs w !! l); [|done].
  intros [= <- <-]. split; [done|apply evolves_refl].
Qed.

Lemma safe_read_list (l : loc) : safe gb lb (read_list l) (fun _ => True).
Proof.
  intros w _ _ a w'. unfold read_list. destruct (lists w !! l); [|done].
  intros [= <- <-]. split; [done|apply evolves_refl].
Qed.

Lemma evolves_set_graph w (l : loc) g :
  gb <= l -> evolves gb lb w (set_graphs (fun h => <[l:=g]> h) w).
Proof.
  intros Hl. split; simpl; try done.
  - by rewrite take_insert_ge.
  - by rewrite length_insert.
  - exists []. by rewrite app_nil_r.
Qed.

Lemma evolves_set_list w (l : loc) v :
  lb <= l -> evolves gb lb w (set_lists (fun h => <[l:=v]> h) w).
Proof.
  intros Hl. split; simpl; try done.
  - by rewrite take_insert_ge.
  - by rewrite length_insert.
  - exists []. by rewrite app_nil_r.
Qed.

Lemma safe_with_graph {A} (l : loc) (m : St Graph A) :
  gb <= l -> safe gb lb (with_graph l m) (fun _ => True).
Proof.
  intros Hl w _ _ a w'. unfold with_graph. destruct (graphs w !! l) as [g|]; [|done].
  destruct (m g); try done. intros [= <- <-]. split; [done|].
  by apply evolves_set_graph.
Qed.

Lemma safe_list_append (l : loc) v :
  lb <= l -> safe gb lb (list_append l v) (fun _ => True).
Proof.
  intros Hl w _ _ a w'. unfold list_append. destruct (lists w !! l); [|done].
  intros [= <- <-]. split; [done|]. by apply evolves_set_list.
Qed.

Lemma safe_in_place {A} (gl il : loc) (m : St Conv A) :
  gb <= gl -> lb <= il -> safe gb lb (in_place gl il m) (fun _ => True).
Proof.
  intros Hg Hl w _ _ a w'. unfold in_place.
  destruct (graphs w !! gl) as [g|]; [|done].
  destruct (lists w !! il) as [v|]; [|done].
  destruct (m _); try done. intros [= <- <-]. split; [done|].
  eapply evolves_trans; [by apply evolves_set_graph|by apply evolves_set_list].
Qed.

Lemma safe_for_each {A} (l : list A) (body : A -> St World unit) :
  (forall x, x ∈ l -> safe gb lb (body x) (fun _ => True)) ->
  safe gb lb (for_each l body) (fun _ => True).
Proof.
  induction l as [|x l IH]; intros Hb; simpl.
  - eapply safe_true, safe_ret.
  - eapply safe_bind; [apply Hb; left|]. intros _ _. apply IH.
    intros y Hy. apply Hb. by right.
Qed.

Lemma safe_fold_each {A T} (l : list A) (body : A -> T -> St World T) (Q : T -> Prop) t :
  Q t ->
  (forall x t, x ∈ l -> Q t -> safe gb lb (body x t) Q) ->
  safe gb lb (fold_each l body t) Q.
Proof.
  revert t. induction l as [|x l IH]; intros t Ht Hb; simpl.
  - eapply safe_weaken; [apply safe_ret|]. by intros ? ->.
  - eapply safe_bind; [apply Hb; [left|done]|]. intros t' Ht'. apply IH; [done|].
    intros y u Hy. apply Hb. by right.
Qed.

Lemma safe_for_state {A T R} (l : list A) (body : A -> T -> St World (T + R))
    (Q : T + R -> Prop) t :
  Q (inl t) ->
  (forall x t, x ∈ l -> Q (inl t) -> safe gb lb (body x t) Q) ->
  safe gb lb (for_state l body t) Q.
Proof.
  revert t. induction l as [|x l IH]; intros t Ht Hb; simpl.
  - eapply safe_weaken; [apply safe_ret|]. by intros ? ->.
  - eapply safe_bind; [apply Hb; [left|done]|]. intros [t'|r] Hr.
    + apply IH; [done|]. intros y u Hy. apply Hb. by right.
    + eapply safe_weaken; [apply safe_ret|]. by intros ? ->.
Qed.

Lemma safe_first_return {A R} (l : list A) (body : A -> St World (option R))
    (Q : option R -> Prop) :
  Q None ->
  (forall x, x ∈ l -> safe gb lb (body x) Q) ->
  safe gb lb (first_return l body) Q.
Proof.
  intros HN. induction l as [|x l IH]; intros Hb; simpl.
  - eapply safe_weaken; [apply safe_ret|]. by intros ? ->.
  - eapply safe_bind; [apply Hb; left|]. intros [r|] Hr.
    + eapply safe_weaken; [apply safe_ret|]. by intros ? ->.
    + apply IH. intros y Hy. apply Hb. by right.
Qed.

End Safe.

Section SafeStrategies.
Context (module_fails : Graph -> list Value -> bool).
Context (gb lb : nat).

Lemma safe_ret' {A} (a : A) (Q : A -> Prop) : Q a -> safe gb lb (ret a) Q.
Proof. intros. eapply safe_weaken; [apply safe_ret|]. by intros ? ->. Qed.

Lemma safe_modify_counter :
  safe gb lb (modify count_query) (fun _ => True).
Proof.
  intros w _ _ ? ? [= <- <-]. split; [done|]. split; simpl; try done.
  exists []. by rewrite app_nil_r.
Qed.

Lemma safe_graph_fails (graph inps : loc) :
  safe gb lb (graph_fails module_fails graph inps) (fun _ => True).
Proof.
  unfold graph_fails.
  eapply safe_bind; [apply safe_modify_counter|intros _ _].
  eapply safe_bind; [apply safe_read_graph|intros g _].
  destruct (lint g) eqn:Hlint.
  - eapply safe_bind; [apply safe_ret|intros _ _].
    eapply safe_bind; [apply safe_read_list|intros args _].
    eapply safe_bind; [apply safe_emit; exact Hlint|intros _ _].
    by apply safe_ret'.
  - eapply (safe_bind _ _ _ _ (fun _ => False)); [apply safe_raise|done].
Qed.

Lemma safe_len_nodes (l : loc) : safe gb lb (len_nodes l) (fun _ => True).
Proof.
  eapply safe_bind; [apply safe_read_graph|intros]. by apply safe_ret'.
Qed.

Lemma safe_len_list (l : loc) : safe gb lb (len_list l) (fun _ => True).
Proof.
  eapply safe_bind; [apply safe_read_list|intros]. by apply safe_ret'.
Qed.

Lemma safe_deepcopy (l : loc) : safe gb lb (deepcopy l) (fun l' => gb <= l').
Proof.
  eapply safe_bind; [apply safe_read_graph|intros]. apply safe_alloc_graph.
Qed.

Lemma safe_copy_list (l : loc) : safe gb lb (copy_list l) (fun l' => lb <= l').
Proof.
  eapply safe_bind; [apply safe_read_list|intros]. apply safe_alloc_list.
Qed.

Lemma safe_check_log2 n : safe gb lb (check_log2 n) (fun _ => True).
Proof.
  unfold check_log2. destruct (decide _); [apply safe_raise|by apply safe_ret'].
Qed.

Lemma safe_assert b : safe gb lb (assert b) (fun _ => True).
Proof. destruct b; [by apply safe_ret'|apply safe_raise]. Qed.

Lemma safe_print l :
  quiet (Print l) -> safe gb lb (print l) (fun _ => True).
Proof. apply safe_emit. Qed.

Lemma safe_suffix_step (cur_graph cur_inps new_graph : loc) gap it vars :
  gb <= new_graph -> lb <= cur_inps ->
  safe gb lb (suffix_step module_fails cur_graph cur_inps new_graph gap it vars)
    (fresh_or_continue gb lb).
Proof.
  intros Hg Hl. destruct it as [idx node], vars as [env tested].
  unfold suffix_step.
  eapply safe_bind; [by apply safe_with_graph|intros new_node _].
  eapply (safe_bind _ _ _ _ (fresh_or_continue gb lb)).
  - destruct (_ && _).
    + eapply safe_bind; [by apply safe_with_graph|intros output_node _].
      eapply safe_bind; [apply safe_graph_fails|intros fails _].
      eapply (safe_bind _ _ _ _ (fun _ => True)).
      { destruct fails; [|by apply safe_ret'].
        eapply safe_bind; [apply safe_len_nodes|intros].
        eapply safe_bind; [apply safe_len_nodes|intros].
        by apply safe_ret'. }
      intros [] _.
      * by apply safe_ret'.
      * eapply safe_bind; [by apply safe_with_graph|intros].
        by apply safe_ret'.
    + by apply safe_ret'.
  - intros [t|st] H; by apply safe_ret'.
Qed.

Lemma safe_suffix_rounds fuel (cur_graph cur_inps : loc) gap tested :
  lb <= cur_inps ->
  safe gb lb (suffix_rounds module_fails fuel cur_graph cur_inps gap tested)
    (fresh_state gb lb).
Proof.
  intros Hl. revert gap tested.
  induction fuel as [|fuel IH]; intros gap tested; cbn [suffix_rounds];
    [apply safe_diverge|].
  destruct (1 <=? gap); [|by apply safe_ret'].
  eapply safe_bind; [apply safe_alloc_graph|intros new_graph Hn].
  eapply safe_bind; [apply safe_read_graph|intros nodes _].
  eapply safe_bind.
  { apply (safe_for_state _ _ _ _ (fresh_or_continue gb lb)); [done|].
    intros. by apply safe_suffix_step. }
  intros [[env tested']|st] H; [apply IH|].
  apply safe_ret'. by intros ? [= <-].
Qed.

Lemma safe_remove_suffix_body (cur_graph cur_inps : loc) :
  lb <= cur_inps ->
  safe gb lb (remove_suffix_body module_fails cur_graph cur_inps)
    (fresh_state gb lb).
Proof.
  intros Hl. unfold remove_suffix_body.
  eapply safe_bind; [apply safe_len_nodes|intros n _].
  eapply safe_bind; [apply safe_check_log2|intros _ _].
  eapply safe_bind; [by apply safe_suffix_rounds|intros [st|] H].
  - by apply safe_ret'.
  - eapply safe_bind; [by apply safe_print|intros _ _].
    by apply safe_ret'.
Qed.

Lemma safe_unused_input_step (cur_graph cur_inps new_inps : loc) ph_nodes idx :
  gb <= cur_graph -> lb <= new_inps ->
  safe gb lb (unused_input_step cur_graph cur_inps new_inps ph_nodes idx)
    (fun _ => True).
Proof.
  intros Hg Hl. unfold unused_input_step.
  destruct (ph_nodes !! idx) as [ph|]; [|apply safe_raise].
  eapply safe_bind; [apply safe_read_graph|intros g _].
  destruct (_ =? _); [by apply safe_with_graph|].
  eapply safe_bind; [apply safe_read_list|intros vs _].
  destruct (vs !! idx); [by apply safe_list_append|apply safe_raise].
Qed.

Lemma safe_remove_unused_inputs_body (cur_graph cur_inps : loc) :
  gb <= cur_graph ->
  safe gb lb (remove_unused_inputs_body module_fails cur_graph cur_inps)
    (fresh_state gb lb).
Proof.
  intros Hg. unfold remove_unused_inputs_body.
  eapply safe_bind; [apply safe_read_graph|intros g _].
  eapply safe_bind; [apply safe_len_list|intros n_inps _].
  eapply safe_bind; [apply safe_assert|intros _ _].
  eapply safe_bind; [apply safe_alloc_list|intros new_inps Hn].
  eapply safe_bind.
  { apply safe_for_each. intros. by apply safe_unused_input_step. }
  intros _ _.
  eapply safe_bind; [apply safe_len_list|intros n_new _].
  eapply safe_bind; [apply safe_len_list|intros n_cur _].
  eapply (safe_bind _ _ _ _ (fun _ => True)).
  { destruct (_ <? _); [apply safe_graph_fails|by apply safe_ret']. }
  intros [] _; apply safe_ret'; [by intros ? [= <-]|done].
Qed.

Lemma safe_eliminate_dead_code_body (cur_graph cur_inps : loc) :
  gb <= cur_graph -> lb <= cur_inps ->
  safe gb lb (eliminate_dead_code_body module_fails cur_graph cur_inps)
    (fresh_state gb lb).
Proof.
  intros Hg Hl. unfold eliminate_dead_code_body.
  eapply safe_bind; [by apply safe_with_graph|intros changed _].
  eapply (safe_bind _ _ _ _ (fun _ => True)).
  { destruct changed; [apply safe_graph_fails|by apply safe_ret']. }
  intros [] _; apply safe_ret'; [by intros ? [= <-]|done].
Qed.

Lemma safe_consolidate_step (new_graph : loc) keep node env :
  gb <= new_graph ->
  safe gb lb (consolidate_step new_graph keep node env) (fun _ => True).
Proof.
  intros Hg. unfold consolidate_step. destruct (keep node); [|by apply safe_ret'].
  eapply safe_bind; [by apply safe_with_graph|intros]. by apply safe_ret'.
Qed.

Lemma safe_consolidate_placeholders (cur_graph : loc) :
  safe gb lb (_consolidate_placeholders cur_graph) (fun l => gb <= l).
Proof.
  unfold _consolidate_placeholders.
  eapply safe_bind; [apply safe_alloc_graph|intros new_graph Hn].
  eapply safe_bind; [apply safe_read_graph|intros nodes _].
  eapply safe_bind.
  { apply (safe_fold_each _ _ _ _ (fun _ => True)); [done|].
    intros. by apply safe_consolidate_step. }
  intros env _.
  eapply safe_bind; [apply safe_read_graph|intros nodes' _].
  eapply safe_bind.
  { apply (safe_fold_each _ _ _ _ (fun _ => True)); [done|].
    intros. by apply safe_consolidate_step. }
  intros env' _. by apply safe_ret'.
Qed.

Lemma safe_window_step (new_graph new_inps : loc) idx is_removing :
  gb <= new_graph -> lb <= new_inps ->
  safe gb lb (window_step new_graph new_inps idx is_removing) (fun _ => True).
Proof.
  intros Hg Hl. unfold window_step.
  eapply safe_bind; [apply safe_read_graph|intros nodes _].
  destruct (nodes !! idx) as [new_node|]; [|apply safe_raise].
  destruct (negb _); [|by apply safe_ret'].
  eapply safe_bind; [by apply safe_in_place|intros]. by apply safe_ret'.
Qed.

Lemma safe_window (cur_graph cur_inps : loc) num_nodes gap start_range :
  safe gb lb (window module_fails cur_graph cur_inps num_nodes gap start_range)
    (fresh_state gb lb).
Proof.
  unfold window.
  eapply safe_bind; [apply safe_deepcopy|intros new_graph Hg].
  eapply safe_bind; [apply safe_copy_list|intros new_inps Hl].
  eapply safe_bind.
  { apply (safe_fold_each _ _ _ _ (fun _ => True)); [done|].
    intros. by apply safe_window_step. }
  intros [] _; simpl; [|by apply safe_ret'].
  eapply safe_bind; [apply safe_consolidate_placeholders|intros new_graph' Hg'].
  eapply safe_bind; [apply safe_graph_fails|intros [] _].
  - apply safe_ret'. by intros ? [= <-].
  - by apply safe_ret'.
Qed.

Lemma safe_delta_rounds fuel (cur_graph cur_inps : loc) num_nodes gap :
  safe gb lb (delta_rounds module_fails fuel cur_graph cur_inps num_nodes gap)
    (fresh_state gb lb).
Proof.
  revert gap. induction fuel as [|fuel IH]; intros gap; cbn [delta_rounds];
    [apply safe_diverge|].
  destruct (1 <=? gap); [|by apply safe_ret'].
  eapply safe_bind.
  { apply (safe_first_return _ _ _ _ (fresh_state gb lb)); [done|].
    intros. apply safe_window. }
  intros [st|] H; [by apply safe_ret'|apply IH].
Qed.

Lemma safe_delta_debugging_body (cur_graph cur_inps : loc) :
  safe gb lb (delta_debugging_body module_fails cur_graph cur_inps)
    (fresh_state gb lb).
Proof.
  unfold delta_debugging_body.
  eapply safe_bind; [apply safe_len_nodes|intros n _].
  eapply safe_bind; [apply safe_check_log2|intros _ _].
  apply safe_delta_rounds.
Qed.

End SafeStrategies.

Lemma bind_Ret {S A B} (m : St S A) (k : A -> St S B) s b s' :
  bind m k s = Ret b s' -> exists a s1, m s = Ret a s1 /\ k a s1 = Ret b s'.
Proof. unfold bind. destruct (m s) as [a s1| |]; try done. eauto. Qed.

Section Wrapper.
Context (module_fails : Graph -> list Value -> bool).

Lemma graph_fails_eq (gl il : loc) w :
  graph_fails module_fails gl il w =
  match graphs w !! gl with
  | None => Raise Dangling (count_query w)
  | Some g =>
      if lint g then
        match lists w !! il with
        | None => Raise Dangling (count_query w)
        | Some v => Ret (module_fails g v) (log (Query g v) (count_query w))
        end
      else Raise (RuntimeError "lint") (count_query w)
  end.
Proof.
  unfold graph_fails. rewrite bind_unfold. simpl.
  rewrite bind_unfold. unfold read_graph. simpl.
  destruct (graphs w !! gl) as [g|]; [|done].
  rewrite bind_unfold. destruct (lint g); [|done]. simpl.
  rewrite bind_unfold. unfold read_list. simpl.
  destruct (lists w !! il) as [v|]; done.
Qed.

Lemma len_nodes_eq (l : loc) w :
  len_nodes l w = match graphs w !! l with
                  | Some g => Ret (length g) w
                  | None => Raise Dangling w
                  end.
Proof.
  unfold len_nodes, read_graph. rewrite bind_unfold.
  by destruct (graphs w !! l).
Qed.

Lemma len_list_eq (l : loc) w :
  len_list l w = match lists w !! l with
                 | Some v => Ret (length v) w
                 | None => Raise Dangling w
                 end.
Proof.
  unfold len_list, read_list. rewrite bind_unfold.
  by destruct (lists w !! l).
Qed.

Lemma register_started strategy name old w :
  _register_strategy module_fails strategy name old w =
  match graphs w !! graph old, lists w !! inps old with
  | Some g, Some v =>
      bind (strategy (length (graphs w)) (length (lists w))) (judge module_fails name old)
        (started name g v w)
  | Some g, None =>
      Raise Dangling (set_graphs (fun h => h ++ [g])
                        (log (Print (StrategyLine name)) w))
  | None, _ => Raise Dangling (log (Print (StrategyLine name)) w)
  end.
Proof.
  unfold _register_strategy, deepcopy, copy_list, read_graph, read_list.
  unfold print, emit, modify, bind at 1 2 3 4 5. simpl.
  destruct (graphs w !! graph old) as [g|]; [|done]. simpl.
  destruct (lists w !! inps old) as [v|]; [|done]. simpl.
  reflexivity.
Qed.

Lemma judge_Some name old new w :
  judge module_fails name old (Some new) w =
  match sizes w new, sizes w old with
  | Some sn, Some so =>
      if decide (progress so sn) then
        match graph_fails module_fails (graph new) (inps new)
                (log (Print (success_line so sn)) w) with
        | Ret true w' => Ret (Some new) w'
        | Ret false w' => Ret None (log (Print WarningLine) w')
        | Raise e w' => Raise e w'
        | Diverge => Diverge
        end
      else Raise (RuntimeError "Success raised but no progress made?") w
  | _, _ => Raise Dangling w
  end.
Proof.
  unfold judge, sizes. rewrite !bind_unfold, len_nodes_eq.
  destruct (graphs w !! graph new) as [gn|]; [|done].
  rewrite !bind_unfold, len_nodes_eq.
  destruct (graphs w !! graph old) as [go|].
  2:{ by destruct (lists w !! inps new). }
  rewrite !bind_unfold, len_list_eq.
  destruct (lists w !! inps new) as [vn|]; [|done].
  rewrite !bind_unfold, len_list_eq.
  destruct (lists w !! inps old) as [vo|]; [|done].
  rewrite !bind_unfold. unfold success_line, progress. simpl.
  destruct (length gn <? length go) eqn:E1.
  - apply Nat.ltb_lt in E1. rewrite decide_True by lia. simpl.
    unfold print, emit, modify. rewrite bind_unfold.
    destruct (graph_fails _ _ _ _) as [[]| |]; done.
  - apply Nat.ltb_ge in E1.
    destruct ((length gn =? length go) && (length vo <? length vn)) eqn:E2.
    + apply andb_true_iff in E2 as [E2 E3].
      apply Nat.eqb_eq in E2. apply Nat.ltb_lt in E3.
      rewrite decide_True by lia. simpl. unfold print, emit, modify.
      rewrite bind_unfold.
      destruct (graph_fails _ _ _ _) as [[]| |]; done.
    + rewrite decide_False; [done|].
      apply andb_false_iff in E2 as [E2|E2].
      * apply Nat.eqb_neq in E2. lia.
      * apply Nat.ltb_ge in E2. lia.
Qed.

Lemma graph_fails_true (gl il : loc) w w' :
  graph_fails module_fails gl il w = Ret true w' ->
  exists g v, graphs w !! gl = Some g /\ lists w !! il = Some v /\
              lint g = true /\ module_fails g v = true /\
              w' = log (Query g v) (count_query w).
Proof.
  rewrite graph_fails_eq. destruct (graphs w !! gl) as [g|]; [|done].
  destruct (lint g) eqn:Hl; [|done].
  destruct (lists w !! il) as [v|]; [|done].
  intros [= E <-]. eauto 10.
Qed.

Lemma judge_accept name old new w w' :
  judge module_fails name old (Some new) w = Ret (Some new) w' ->
  smaller w' new old /\ reproduces module_fails w' new /\
  graphs w' = graphs w /\ lists w' = lists w /\
  exists evs, trace w' = trace w ++ evs /\ Forall quiet evs.
Proof.
  rewrite judge_Some.
  destruct (sizes w new) as [sn|] eqn:Hn; [|done].
  destruct (sizes w old) as [so|] eqn:Ho; [|done].
  destruct (decide _) as [Hp|]; [|done].
  destruct (graph_fails _ _ _ _) as [[] w1| |] eqn:E; try done.
  intros [= <-]. apply graph_fails_true in E as (g & v & Hg & Hv & Hl & Hf & ->).
  simpl in *. split; [|split; [|split; [done|split; [done|]]]].
  - by exists sn, so.
  - by exists g, v.
  - eexists [_; _]. rewrite <- app_assoc. split; [done|].
    repeat constructor; [by unfold success_line; destruct (_ <? _)|done].
Qed.

End Wrapper.

Lemma preserved_refl w : preserved w w.
Proof. split; by rewrite firstn_all. Qed.

Lemma preserved_length w w' :
  preserved w w' ->
  length (graphs w) <= length (graphs w') /\ length (lists w) <= length (lists w').
Proof.
  intros [Hg Hl]. apply (f_equal length) in Hg, Hl.
  rewrite length_take in Hg. rewrite length_take in Hl. lia.
Qed.

Lemma preserved_trans w1 w2 w3 :
  preserved w1 w2 -> preserved w2 w3 -> preserved w1 w3.
Proof.
  intros H12 H23. pose proof (preserved_length _ _ H12) as [Lg Ll].
  destruct H12 as [Hg Hl], H23 as [Hg' Hl']. split.
  - rewrite <- Hg at 2. rewrite <- Hg'. rewrite take_take. f_equal. lia.
  - rewrite <- Hl at 2. rewrite <- Hl'. rewrite take_take. f_equal. lia.
Qed.

Lemma preserved_graph w w' (l : loc) g :
  preserved w w' -> graphs w !! l = Some g -> graphs w' !! l = Some g.
Proof.
  intros [Hg _] H. pose proof (lookup_lt_Some _ _ _ H).
  rewrite <- Hg in H. by rewrite lookup_take_lt in H.
Qed.

Lemma preserved_list w w' (l : loc) v :
  preserved w w' -> lists w !! l = Some v -> lists w' !! l = Some v.
Proof.
  intros [_ Hl] H. pose proof (lookup_lt_Some _ _ _ H).
  rewrite <- Hl in H. by rewrite lookup_take_lt in H.
Qed.

Lemma sizes_preserved w w' st s :
  preserved w w' -> sizes w st = Some s -> sizes w' st = Some s.
Proof.
  intros Hp. unfold sizes.
  destruct (graphs w !! graph st) as [g|] eqn:Hg; [|done].
  destruct (lists w !! inps st) as [v|] eqn:Hv; [|done].
  by rewrite (preserved_graph _ _ _ _ Hp Hg), (preserved_list _ _ _ _ Hp Hv).
Qed.

Lemma smaller_preserved w w' a b :
  preserved w w' -> smaller w a b -> smaller w' a b.
Proof.
  intros Hp (sa & sb & Ha & Hb & H). exists sa, sb.
  eauto using sizes_preserved.
Qed.

Lemma descending_preserved w w' st l :
  preserved w w' -> descending w st l -> descending w' st l.
Proof.
  intros Hp. revert st. induction l as [|x l IH]; intros st; [done|].
  intros [H1 H2]. split; [by eapply smaller_preserved|by apply IH].
Qed.

Lemma descending_app w st l1 l2 :
  descending w st (l1 ++ l2) <->
  descending w st l1 /\ descending w (last_state st l1) l2.
Proof.
  revert st. induction l1 as [|x l1 IH]; intros st; simpl.
  - unfold last_state. simpl. tauto.
  - rewrite IH. unfold last_state. simpl.
    assert (List.last (x :: l1) st = List.last l1 x) as E.
    { clear. revert x. induction l1 as [|y l1 IH]; intros x; [done|].
      simpl in *. destruct l1; [done|]. apply IH. }
    simpl in E. rewrite E. tauto.
Qed.

Lemma last_state_app st l1 l2 :
  last_state st (l1 ++ l2) = last_state (last_state st l1) l2.
Proof.
  unfold last_state. destruct l2 as [|y l2 _] using rev_ind.
  - by rewrite app_nil_r.
  - by rewrite app_assoc, !last_last.
Qed.

Lemma quiet_linted e : quiet e -> linted e.
Proof. by destruct e as [[]| |]. Qed.

Lemma quiet_names evs : Forall quiet evs -> strategy_names evs = [].
Proof.
  induction 1 as [|e evs He _ IH]; [done|].
  unfold strategy_names in *. by destruct e as [[]| |].
Qed.

Lemma strategy_names_app l1 l2 :
  strategy_names (l1 ++ l2) = strategy_names l1 ++ strategy_names l2.
Proof. apply omap_app. Qed.

Section Driver.
Context (module_fails : Graph -> list Value -> bool).

Lemma judge_run name old result w r w' :
  judge module_fails name old result w = Ret r w' ->
  graphs w' = graphs w /\ lists w' = lists w /\
  (exists evs, trace w' = trace w ++ evs /\ Forall quiet evs) /\
  (forall new, r = Some new ->
     smaller w' new old /\ reproduces module_fails w' new).
Proof.
  destruct result as [new|].
  - destruct r as [new'|].
    + intros H. assert (new' = new) as ->.
      { rewrite judge_Some in H.
        destruct (sizes w new), (sizes w old); try done.
        destruct (decide _); [|done].
        by destruct (graph_fails _ _ _ _) as [[]| |]; try done; injection H. }
      apply judge_accept in H as (? & ? & ? & ? & ?).
      split; [done|]. split; [done|]. split; [done|]. by intros ? [= <-].
    + rewrite judge_Some.
      destruct (sizes w new) as [sn|], (sizes w old) as [so|]; try done.
      destruct (decide _); [|done].
      rewrite graph_fails_eq. simpl.
      destruct (graphs w !! graph new) as [g|]; [|done].
      destruct (lint g) eqn:Hl; [|done].
      destruct (lists w !! inps new) as [v|]; [|done].
      destruct (module_fails g v); [done|]. intros [= <-]. simpl.
      split; [done|]. split; [done|]. split; [|done].
      eexists [_; _; _]. rewrite <- !app_assoc. split; [done|].
      repeat constructor; [by unfold success_line; destruct (_ <? _)|done].
  - simpl. unfold print, emit, modify. rewrite bind_unfold.
    intros [= <- <-]. simpl. split; [done|]. split; [done|]. split; [|done].
    eexists [_]. split; [done|]. by repeat constructor.
Qed.

Lemma register_wrapped strategy name :
  well_behaved strategy ->
  wrapped module_fails (_register_strategy module_fails strategy name) name.
Proof.
  intros Hwb old w r w'. rewrite register_started. unfold sizes.
  destruct (graphs w !! graph old) as [g|] eqn:Hg; [|done].
  destruct (lists w !! inps old) as [v|] eqn:Hv; [|done].
  intros (result & w1 & Hs & Hj)%bind_Ret.
  destruct (Hwb (length (graphs w)) (length (lists w)) _ _ (le_n _) (le_n _)
              (started name g v w)) with (3 := Hs)
    as [_ [G L Gl Ll (evs & T & Q)]]; simpl; rewrite ?length_app; try lia.
  apply judge_run in Hj as (G' & L' & (evs' & T' & Q') & Hnew).
  simpl in *. rewrite take_app_length in G. rewrite take_app_length in L.
  split; [|split; [|split]]; [| |done|done].
  - split; congruence.
  - exists (evs ++ evs'). rewrite T', T, <- !app_assoc. split; [done|].
    by apply Forall_app.
Qed.

End Driver.

Section Loop.
Context (module_fails : Graph -> list Value -> bool).

Lemma try_strategies_run ss names p w p' w' :
  Forall2 (wrapped module_fails) ss names ->
  fold_each ss try_strategy p w = Ret p' w' ->
  preserved w w' /\
  (exists evs, trace w' = trace w ++ evs /\ strategy_names evs = names /\
               Forall linted evs) /\
  (exists news,
     assigned p' = assigned p ++ news /\
     descending w' (failing_state p) news /\
     failing_state p' = last_state (failing_state p) news /\
     any_succeeded p' = any_succeeded p || negb (bool_decide (news = []))).
Proof.
  intros Hss. revert p w. induction Hss as [|S name ss names HS _ IH];
    intros p w; simpl.
  - intros [= <- <-]. split; [apply preserved_refl|]. split.
    + exists []. by rewrite app_nil_r.
    + exists []. rewrite app_nil_r, orb_false_r. done.
  - intros (p1 & w1 & H1 & H2)%bind_Ret. unfold try_strategy in H1.
    apply bind_Ret in H1 as (r & w1' & HSr & Hr).
    apply HS in HSr as (P1 & (evs1 & T1 & Q1) & _ & Hnew).
    apply IH in H2 as (P2 & (evs2 & T2 & N2 & L2) & (news & A2 & D2 & F2 & S2)).
    split; [|split].
    + destruct r; injection Hr as <- <-; by eapply preserved_trans.
    + exists (Print (StrategyLine name) :: evs1 ++ evs2).
      assert (w1 = w1') as -> by (by destruct r; injection Hr).
      rewrite T2, T1, <- app_assoc. split; [done|]. split.
      * change (Print (StrategyLine name) :: evs1 ++ evs2)
          with ([Print (StrategyLine name)] ++ evs1 ++ evs2).
        rewrite !strategy_names_app, (quiet_names evs1), N2 by done. done.
      * constructor; [done|]. apply Forall_app. split; [|done].
        eapply Forall_impl; [done|]. apply quiet_linted.
    + destruct r as [new|]; injection Hr as <- <-.
      * destruct (Hnew new eq_refl) as [Hsm _]. simpl in *.
        exists (new :: news). rewrite A2, <- app_assoc. split; [done|].
        split; [|split].
        -- split; [by eapply smaller_preserved|done].
        -- rewrite F2.
           change (new :: news) with ([new] ++ news).
           by rewrite (last_state_app (failing_state p) [new] news).
        -- rewrite S2. by rewrite orb_true_r.
      * exists news. done.
Qed.

Lemma wrapped_strategies :
  (forall strategy name, well_behaved strategy ->
     wrapped module_fails (_register_strategy module_fails strategy name) name) ->
  Forall2 (wrapped module_fails) (strategies module_fails) strategy_order.
Proof.
  intros H. unfold strategies, strategy_order, remove_suffix,
    eliminate_dead_code, remove_unused_inputs, delta_debugging.
  assert (well_behaved (remove_suffix_body module_fails)) as H1.
  { intros gb lb gl il Hg Hl. by apply safe_remove_suffix_body. }
  assert (well_behaved (eliminate_dead_code_body module_fails)) as H2.
  { intros gb lb gl il Hg Hl. by apply safe_eliminate_dead_code_body. }
  assert (well_behaved (remove_unused_inputs_body module_fails)) as H3.
  { intros gb lb gl il Hg Hl. by apply safe_remove_unused_inputs_body. }
  assert (well_behaved (delta_debugging_body module_fails)) as H4.
  { intros gb lb gl il Hg Hl. apply safe_delta_debugging_body. }
  constructor; [by apply H|].
  constructor; [by apply H|].
  constructor; [by apply H|].
  constructor; [by apply H|].
  constructor; [by apply H|].
  constructor; [by apply H|].
  constructor.
Qed.

Lemma run_pass_run st w p w' :
  run_pass (strategies module_fails) st w = Ret p w' ->
  preserved w w' /\
  (exists evs, trace w' = trace w ++ evs /\
               strategy_names evs = strategy_order /\ Forall linted evs) /\
  descending w' st (assigned p) /\
  failing_state p = last_state st (assigned p) /\
  any_succeeded p = negb (bool_decide (assigned p = [])).
Proof.
  intros H. eapply try_strategies_run in H
    as (P & T & (news & A & D & F & S));
    [|apply wrapped_strategies, register_wrapped].
  simpl in *. by subst.
Qed.

Lemma minify_loop_run passes st w final hist w' :
  minify_loop module_fails passes st w = Ret (final, hist) w' ->
  preserved w w' /\
  descending w' st (concat hist) /\
  final = last_state st (concat hist) /\
  (exists evs, trace w' = trace w ++ evs /\
     strategy_names evs = concat (replicate (length hist) strategy_order) /\
     Forall linted evs) /\
  (exists hist0, hist = hist0 ++ [[]] /\ Forall (fun l => l <> []) hist0).
Proof.
  revert st w final hist. induction passes as [|passes IH];
    intros st w final hist; [done|]. cbn [minify_loop].
  intros (p & w1 & Hp & H)%bind_Ret.
  apply run_pass_run in Hp as (P1 & (evs1 & T1 & N1 & L1) & D1 & F1 & S1).
  destruct (any_succeeded p) eqn:Hany; simpl in H.
  - apply bind_Ret in H as ([final' hist'] & w2 & Hloop & [= <- <- <-]).
    apply IH in Hloop
      as (P2 & D2 & F2 & (evs2 & T2 & N2 & L2) & (hist0 & -> & H0)).
    simpl. split; [by eapply preserved_trans|]. split; [|split; [|split]].
    + apply descending_app. split; [by eapply descending_preserved|].
      by rewrite <- F1.
    + by rewrite last_state_app, <- F1.
    + exists (evs1 ++ evs2). rewrite T2, T1, <- app_assoc. split; [done|].
      split; [|by apply Forall_app].
      by rewrite strategy_names_app, N1, N2.
    + exists (assigned p :: hist0). split; [done|]. constructor; [|done].
      intros E. rewrite E in S1. done.
  - injection H as <- <- <-. simpl. rewrite !(app_nil_r (assigned p)).
    split; [done|]. split; [done|]. split; [done|]. split.
    + by exists evs1.
    + exists []. split; [|done]. simpl. f_equal.
      symmetry in S1. apply negb_false_iff in S1.
      by apply bool_decide_eq_true in S1.
Qed.

End Loop.

Section Claims.
Context (module_fails : Graph -> list Value -> bool).

Lemma register_accept strategy name old new w w' :
  _register_strategy module_fails strategy name old w = Ret (Some new) w' ->
  smaller w' new old /\ reproduces module_fails w' new.
Proof.
  rewrite register_started.
  destruct (graphs w !! graph old) as [g|]; [|done].
  destruct (lists w !! inps old) as [v|]; [|done].
  intros (result & w1 & _ & Hj)%bind_Ret.
  apply judge_run in Hj as (_ & _ & _ & Hnew). by apply Hnew.
Qed.

Lemma strategies_wrapped S :
  S ∈ strategies module_fails -> exists name, wrapped module_fails S name.
Proof.
  intros HS.
  pose proof (wrapped_strategies module_fails
                (register_wrapped module_fails)) as H.
  apply list_elem_of_lookup in HS as [k Hk].
  destruct (Forall2_lookup_l _ _ _ _ _ H Hk) as (name & _ & Hname).
  by exists name.
Qed.

(** C9: an invocation of any of the strategies of the driver that returns
    (a new state or no progress) leaves every object that existed before
    it as it was, in particular the graph and the input list of the
    accepted state it was given. *)
Theorem strategy_keeps_accepted_state S old w r w' :
  S ∈ strategies module_fails ->
  S old w = Ret r w' ->
  preserved w w' /\
  is_Some (graphs w !! graph old) /\
  graphs w' !! graph old = graphs w !! graph old /\
  is_Some (lists w !! inps old) /\
  lists w' !! inps old = lists w !! inps old.
Proof.
  intros [name HS]%strategies_wrapped Hrun.
  apply HS in Hrun as (P & _ & [sz Hsz] & _). split; [done|].
  unfold sizes in Hsz.
  destruct (graphs w !! graph old) as [g|] eqn:Hg; [|done].
  destruct (lists w !! inps old) as [v|] eqn:Hv; [|done].
  rewrite (preserved_graph _ _ _ _ P Hg), (preserved_list _ _ _ _ P Hv).
  eauto.
Qed.

(** C4: a state that [new_func] returns for any strategy has fewer nodes
    than the state it replaces, or as many nodes and more inputs; and the
    states assigned to [failing_state] during a run of the loop form,
    from the initial state on, a chain in which each state is smaller in
    that sense than the one before. *)
Theorem accepted_states_descend :
  (forall strategy name old new w w',
     _register_strategy module_fails strategy name old w = Ret (Some new) w' ->
     smaller w' new old) /\
  (forall passes st w final hist w',
     minify_loop module_fails passes st w = Ret (final, hist) w' ->
     descending w' st (concat hist)).
Proof.
  split.
  - intros * H. by apply register_accept in H as [? _].
  - intros * H. by apply minify_loop_run in H as (_ & ? & _).
Qed.


End Claims.

(** C9, on the run of the loop on [Demo.unused_input]: the first strategy
    returns no progress and leaves the store as it was. *)
Lemma strategy_keeps_accepted_state_witness :
  exists w',
    remove_suffix Demo.fails_on_f10 (mkReproState 0 0) Demo.two_inputs
    = Ret None w' /\
    graphs w' !! 0 = Some Demo.unused_input /\
    lists w' !! 0 = Some [Tensor 100; Tensor 101].
Proof.
  eexists. split; [vm_compute; reflexivity|].
  destruct (strategy_keeps_accepted_state Demo.fails_on_f10
              (remove_suffix Demo.fails_on_f10) (mkReproState 0 0)
              Demo.two_inputs None _ ltac:(left) ltac:(vm_compute; reflexivity))
    as (_ & _ & Hg & _ & Hl).
  split; [exact Hg|exact Hl].
Defined.

(** C4, on the run of the loop on [Demo.unused_input]: one state is
    assigned, and it is smaller than the initial one. *)
Lemma accepted_states_descend_witness :
  match Demo.loop_run with
  | Ret (final, hist) w' =>
      length (concat hist) = 1 /\
      descending w' (mkReproState 0 0) (concat hist)
  | _ => False
  end.
Proof.
  unfold Demo.loop_run. cbv beta iota. split; [reflexivity|].
  eapply (proj2 (accepted_states_descend Demo.fails_on_f10)
            5 (mkReproState 0 0) Demo.two_inputs).
  vm_compute. reflexivity.
Defined.

(** C5: the run of the minifier on [Demo.unused_input] makes two passes,
    each starting the six strategies in the fixed order.  The first pass
    accepts one state, that of remove-unused-inputs, whose inputs are
    [[t100]]; the second pass makes no progress and the loop ends.  That
    state is what [generate_repro] is called with, but it is not what is
    returned: the graph returned is the one of that state, the list of
    inputs returned is the list [[t100; t101]] the minifier was given. *)
Theorem minifier_returns_not_last_accepted :
  let TS := "Truncate suffix"%string in
  let EDC := "Eliminate dead code"%string in
  let RUI := "Remove unused inputs"%string in
  let DD := "Delta Debugging"%string in
  minifier Demo.fails_on_f10 Demo.all_tensors 5 0 0 Demo.two_inputs
  = Demo.minifier_run /\
  Demo.loop_run
  = Ret (mkReproState 5 4, [[mkReproState 5 4]; []])
      (Demo.final_world Demo.loop_run) /\
  match Demo.minifier_run with
  | Ret (failing_fx, returned_inps) w' =>
      printed (trace w') =
      [ StartedOff 4;
        StrategyLine TS; FailSuffixLine; FailLine TS;
        StrategyLine EDC; FailLine EDC;
        StrategyLine RUI; SuccessNodes 4 3;
        StrategyLine DD; FailLine DD;
        StrategyLine EDC; FailLine EDC;
        StrategyLine RUI; FailLine RUI;
        StrategyLine TS; FailSuffixLine; FailLine TS;
        StrategyLine EDC; FailLine EDC;
        StrategyLine RUI; FailLine RUI;
        StrategyLine DD; FailLine DD;
        StrategyLine EDC; FailLine EDC;
        StrategyLine RUI; FailLine RUI;
        MadeQueries 9 ] /\
      exists g,
        graphs w' !! 5 = Some g /\ lists w' !! 4 = Some [Tensor 100] /\
        last (trace w') = Some (Repro g [Tensor 100]) /\
        (failing_fx, returned_inps) = (5, 0) /\
        lists w' !! returned_inps = Some [Tensor 100; Tensor 101]
  | _ => False
  end.
Proof.
  cbv zeta. split; [vm_compute; reflexivity|].
  split; [vm_compute; reflexivity|].
  unfold Demo.minifier_run. cbv beta iota.
  split; [vm_compute; reflexivity|].
  eexists. split; [reflexivity|].
  repeat split; vm_compute; reflexivity.
Qed.

(** C1: on [Demo.unused_input] the minifier returns the minimized graph
    together with the list of inputs it was given, not with the inputs of
    the minimized state; the oracle does not fail on that pair, while it
    does on the pair handed to [generate_repro]. *)
Theorem minifier_returns_given_inps :
  match Demo.minifier_run with
  | Ret (failing_fx, returned_inps) w' =>
      returned_inps = 0 /\
      exists g vs, graphs w' !! failing_fx = Some g /\
                   lists w' !! returned_inps = Some vs /\
                   lint g = true /\
                   Demo.fails_on_f10 g vs = false /\
                   exists vs', last (trace w') = Some (Repro g vs') /\
                               Demo.fails_on_f10 g vs' = true
  | _ => False
  end.
Proof.
  unfold Demo.minifier_run. cbv beta iota. split; [reflexivity|].
  eexists _, _. split; [reflexivity|]. split; [reflexivity|].
  split; [vm_compute; reflexivity|]. split; [vm_compute; reflexivity|].
  eexists. split; [vm_compute; reflexivity|]. vm_compute. reflexivity.
Qed.

(** C10: converting node [a] of [Demo.diamond] turns three nodes into
    placeholders and appends four inputs: [c], a consumer of both [a] and
    [b], is converted twice. *)
Theorem convert_diamond_appends_twice :
  exists g' inps',
    _convert_node_to_placeholder 1 (Demo.diamond, [Tensor 7])
    = Ret tt (g', inps') /\
    count_placeholders g' = count_placeholders Demo.diamond + 3 /\
    inps' = [Tensor 7; torch_zeros; torch_zeros; Tensor 9; Tensor 9].
Proof.
  eexists _, _. split; [vm_compute; reflexivity|].
  split; vm_compute; reflexivity.
Qed.

(** On [Demo.diamond]: node [a] evaluates to a pair, so a zero is appended
    and its consumers [b] and [c] are converted in turn. *)
Lemma convert_node_to_placeholder_cases_witness :
  _convert_node_to_placeholder 1 (Demo.diamond, []) =
  for_each [2; 3] _convert_node_to_placeholder
    ([ mkNode 0 placeholder (Named 0) [] (Some (Tensor 7));
       mkNode 1 placeholder (Named 1) [] (Some Demo.pair);
       mkNode 2 call_function (Payload 11) [1] (Some Demo.pair);
       mkNode 3 call_function (Payload 12) [1; 2] (Some (Tensor 9));
       mkNode 4 output (Named 4) [3] None ], [torch_zeros]).
Proof.
  exact (proj2 (convert_node_to_placeholder_cases 1 Demo.diamond []
                  (mkNode 1 call_function (Payload 10) [0] (Some Demo.pair))
                  eq_refl)).
Defined.

(** C7: node [s] of [Demo.with_size] evaluates to an integer, so
    [ConcreteProp.run_node] records no value for it.  Converting it
    rewrites the node into a placeholder and then raises [KeyError]:
    nothing is appended to the inputs, no zero scalar either, and its
    consumer [y] is not converted. *)
Theorem convert_unrecorded_node_raises :
  let x := mkNode 0 placeholder (Named 0) [] (Some (Tensor 0)) in
  let s := mkNode 1 call_function (Payload 10) [0] None in
  let y := mkNode 2 call_function (Payload 11) [0; 1] (Some (Tensor 2)) in
  let out := mkNode 3 output (Named 3) [2] (Some (Tensor 3)) in
  run_node s (Other 3) = s /\
  graphs Demo.size_propagated !! 0 = Some [x; s; y; out] /\
  _convert_node_to_placeholder 1 ([x; s; y; out], [Tensor 100])
  = Raise KeyError
      ([x; mkNode 1 placeholder (Named 1) [] None; y; out], [Tensor 100]).
Proof. repeat split; vm_compute; reflexivity. Qed.

Section Oracle.
Context (module_fails : Graph -> list Value -> bool).
Context (execute : Graph -> list Value -> option (list Value)).

(** C2 (as amended): when a strategy returns a candidate that makes
    progress and the oracle, asked again by [new_func], does not fail on
    it, [new_func] prints a warning and returns no progress; the run goes
    on. *)
Theorem unreproduced_candidate_is_dropped
    strategy name old w g v new w1 sn so g' v' :
  graphs w !! graph old = Some g ->
  lists w !! inps old = Some v ->
  strategy (length (graphs w)) (length (lists w)) (started name g v w)
  = Ret (Some new) w1 ->
  sizes w1 new = Some sn ->
  sizes w1 old = Some so ->
  progress so sn ->
  graphs w1 !! graph new = Some g' ->
  lists w1 !! inps new = Some v' ->
  lint g' = true ->
  module_fails g' v' = false ->
  _register_strategy module_fails strategy name old w
  = Ret None
      (log (Print WarningLine)
         (log (Query g' v')
            (count_query (log (Print (success_line so sn)) w1)))).
Proof.
  intros Hg Hv Hs Hsn Hso Hp Hg' Hv' Hl Hf.
  rewrite register_started, Hg, Hv, bind_unfold, Hs, judge_Some, Hsn, Hso.
  rewrite decide_True by done. rewrite graph_fails_eq. simpl.
  by rewrite Hg', Hl, Hv', Hf.
Qed.

Lemma propagate_Ret (fail_f inps : loc) w w1 :
  propagate execute fail_f inps w = Ret tt w1 ->
  exists g, w1 = set_graphs (fun h => <[fail_f := g]> h) w /\
            is_Some (graphs w !! fail_f).
Proof.
  unfold propagate. intros (g' & w0 & Hr & H)%bind_Ret.
  unfold read_graph in Hr.
  destruct (graphs w !! fail_f) as [g|] eqn:Hg; [|done].
  injection Hr as <- <-.
  apply bind_Ret in H as (args' & w0 & Hr & H).
  unfold read_list in Hr. destruct (lists w !! inps) as [args|]; [|done].
  injection Hr as <- <-.
  destruct (execute g args); [|done].
  unfold with_graph, put in H. rewrite Hg in H. injection H as <-. eauto.
Qed.

(** When the oracle does not fail on the original pair, the minifier
    raises its [RuntimeError] at once: the graph has its values recorded,
    one query is made, nothing is printed and no strategy is started. *)
Theorem minifier_needs_failing_input passes (fail_f inps : loc) w g v results :
  graphs w !! fail_f = Some g ->
  lists w !! inps = Some v ->
  execute g v = Some results ->
  let g' := imap (fun k n => from_option (run_node n) n (results !! k)) g in
  lint g' = true ->
  module_fails g' v = false ->
  minifier module_fails execute passes fail_f inps w
  = Raise (RuntimeError "Input graph did not fail the tester")
      (log (Query g' v)
         (count_query (set_graphs (fun h => <[fail_f := g']> h) w))).
Proof.
  intros Hg Hv He g' Hl Hf. unfold minifier.
  rewrite bind_unfold, len_nodes_eq, Hg, bind_unfold.
  unfold propagate at 1. rewrite bind_unfold. unfold read_graph at 1.
  rewrite Hg, bind_unfold. unfold read_list at 1. rewrite Hv, He.
  unfold with_graph, put. rewrite Hg.
  rewrite bind_unfold, graph_fails_eq. simpl.
  rewrite list_lookup_insert_eq by (by eapply lookup_lt_Some).
  fold g'. by rewrite Hl, Hv, Hf.
Qed.

(** C8 (as amended): before a query [graph_fails] checks that the graph
    passes [lint], whatever the number of inputs, and the oracle is not
    asked when it does not; the number of inputs is compared with the
    number of placeholders by remove-unused-inputs alone, on entry; and
    every query of a run of the loop is on a graph that passes [lint]. *)
Theorem queries_are_linted :
  (forall (gl il : loc) w g v,
     graphs w !! gl = Some g -> lists w !! il = Some v ->
     graph_fails module_fails gl il w =
     if lint g then Ret (module_fails g v) (log (Query g v) (count_query w))
     else Raise (RuntimeError "lint") (count_query w)) /\
  (forall (cur_graph cur_inps : loc) w g v,
     graphs w !! cur_graph = Some g -> lists w !! cur_inps = Some v ->
     length (_get_placeholders g) <> length v ->
     remove_unused_inputs_body module_fails cur_graph cur_inps w
     = Raise AssertionError w) /\
  (forall passes st w r w',
     minify_loop module_fails passes st w = Ret r w' ->
     exists evs, trace w' = trace w ++ evs /\ Forall linted evs).
Proof.
  split; [|split].
  - intros * Hg Hv. rewrite graph_fails_eq, Hg, Hv. by destruct (lint g).
  - intros * Hg Hv Hne. unfold remove_unused_inputs_body.
    rewrite bind_unfold. unfold read_graph. rewrite Hg.
    rewrite bind_unfold, len_list_eq, Hv, bind_unfold.
    by apply Nat.eqb_neq in Hne as ->.
  - intros passes st w [final hist] w' H.
    apply minify_loop_run in H as (_ & _ & _ & (evs & T & _ & L) & _).
    by exists evs.
Qed.

End Oracle.

(** C2: [new_func] around [Demo.drop_last]: the candidate has one node
    less, the oracle does not fail on it, and [new_func] returns no
    progress after a warning; nothing is raised. *)
Lemma unreproduced_candidate_counterexample :
  exists w1 w',
    Demo.drop_last 1 1
      (started "Drop last" Demo.returns_input [Tensor 100]
         (Demo.one_input Demo.returns_input))
    = Ret (Some (mkReproState 1 1)) w1 /\
    sizes w1 (mkReproState 1 1) = Some (1, 1) /\
    sizes w1 (mkReproState 0 0) = Some (2, 1) /\
    _register_strategy Demo.has_output Demo.drop_last "Drop last"
      (mkReproState 0 0) (Demo.one_input Demo.returns_input)
    = Ret None w' /\
    last (trace w') = Some (Print WarningLine).
Proof. eexists _, _. repeat split; vm_compute; reflexivity. Qed.

Lemma unreproduced_candidate_is_dropped_witness :
  exists w',
    _register_strategy Demo.has_output Demo.drop_last "Drop last"
      (mkReproState 0 0) (Demo.one_input Demo.returns_input)
    = Ret None w'.
Proof.
  eexists.
  eapply (unreproduced_candidate_is_dropped Demo.has_output Demo.drop_last
            "Drop last" (mkReproState 0 0) (Demo.one_input Demo.returns_input)
            Demo.returns_input [Tensor 100] (mkReproState 1 1) _ (1, 1) (2, 1));
    first [ vm_compute; reflexivity | left; simpl; lia ].
Defined.

(** C3: on [Demo.with_size] the original pair satisfies [graph_fails]: the
    first query is on a graph that passes [lint] and the oracle fails on
    it, and the run starts.  The run then raises [KeyError] when delta
    debugging converts node [s], for which no value was recorded: the
    reproduction of the failure by the original pair is not all the run
    needs. *)
Theorem unrecorded_value_aborts_run :
  let TS := "Truncate suffix"%string in
  let EDC := "Eliminate dead code"%string in
  let RUI := "Remove unused inputs"%string in
  let DD := "Delta Debugging"%string in
  minifier Demo.fails_on_f11 Demo.size_is_int 5 0 0
    (Demo.one_input Demo.with_size) = Demo.size_run /\
  match Demo.size_run with
  | Raise KeyError w' =>
      match trace w' with
      | Query g vs :: evs =>
          vs = [Tensor 100] /\ lint g = true /\
          Demo.fails_on_f11 g vs = true /\
          printed evs =
          [ StartedOff 4;
            StrategyLine TS; FailSuffixLine; FailLine TS;
            StrategyLine EDC; FailLine EDC;
            StrategyLine RUI; FailLine RUI;
            StrategyLine DD ]
      | _ => False
      end
  | _ => False
  end.
Proof.
  cbv zeta. split; [vm_compute; reflexivity|].
  vm_compute. repeat split; reflexivity.
Qed.

(** On [Demo.with_size] with an oracle that does not fail on it. *)
Lemma minifier_needs_failing_input_witness :
  minifier Demo.fails_on_f12 Demo.size_is_int 5 0 0
    (Demo.one_input Demo.with_size)
  = Raise (RuntimeError "Input graph did not fail the tester")
      Demo.size_queried.
Proof.
  exact (minifier_needs_failing_input Demo.fails_on_f12 Demo.size_is_int
           5 0 0 (Demo.one_input Demo.with_size) Demo.with_size [Tensor 100]
           [Tensor 0; Other 3; Tensor 2; Tensor 3]
           eq_refl eq_refl eq_refl eq_refl eq_refl).
Defined.

(** C8: the minifier run on [Demo.unused_input] with three inputs: the
    first query is made with three inputs for two placeholders; the run
    is stopped later, by the assertion of remove-unused-inputs. *)
Lemma input_count_check_counterexample :
  minifier Demo.fails_with_f10 Demo.all_tensors 5 0 0 Demo.three_inputs
  = Demo.three_inputs_run /\
  match Demo.three_inputs_run with
  | Raise AssertionError w' =>
      match trace w' with
      | Query g vs :: evs =>
          length vs = 3 /\ count_placeholders g = 2 /\
          last (strategy_names evs) = Some "Remove unused inputs"%string
      | _ => False
      end
  | _ => False
  end.
Proof. split; [vm_compute; reflexivity|]. vm_compute. auto. Qed.

Lemma queries_are_linted_witness :
  remove_unused_inputs_body Demo.fails_with_f10 0 0 Demo.three_inputs
  = Raise AssertionError Demo.three_inputs.
Proof.
  apply (proj1 (proj2 (queries_are_linted Demo.fails_with_f10))
           0 0 Demo.three_inputs Demo.unused_input
           [Tensor 100; Tensor 101; Tensor 102]);
    [reflexivity|reflexivity|vm_compute; lia].
Defined.

(** ** Truncate suffix *)

Lemma elem_of_rev {A} (x : A) (l : list A) : x ∈ rev l <-> x ∈ l.
Proof. rewrite !list_elem_of_In. symmetry. apply in_rev. Qed.

Lemma lint_from_app seen g1 g2 :
  lint_from seen (g1 ++ g2) =
  lint_from seen g1 && lint_from (rev (names g1) ++ seen) g2.
Proof.
  revert seen. induction g1 as [|n g1 IH]; intros seen; [done|].
  cbn [app lint_from]. rewrite IH. unfold names. rewrite fmap_cons.
  cbn [rev]. rewrite <- app_assoc. cbn [app].
  by rewrite <- !andb_assoc.
Qed.

Lemma lint_take g k : lint g = true -> lint (take k g) = true.
Proof.
  unfold lint. rewrite <- (take_drop k g) at 1. rewrite lint_from_app.
  by intros [? _]%andb_true_iff.
Qed.

Lemma lint_from_fresh seen g n :
  lint_from seen g = true -> n ∈ g -> name n ∉ seen.
Proof.
  revert seen. induction g as [|m g IH]; intros seen; [by intros _ ?%elem_of_nil|].
  cbn [lint_from]. intros [[H1 H2]%andb_true_iff H3]%andb_true_iff.
  intros [->|Hin]%elem_of_cons.
  - by apply bool_decide_eq_true in H1.
  - intros Hs. eapply (IH _ H3 Hin). by right.
Qed.

Lemma lint_lookup g k n :
  lint g = true -> g !! k = Some n ->
  (name n ∉ names (take k g)) /\
  Forall (fun a => a ∈ names (take k g)) (args n).
Proof.
  intros Hl Hk. unfold lint in Hl.
  rewrite <- (take_drop_middle g k n Hk) in Hl.
  rewrite lint_from_app, app_nil_r in Hl.
  apply andb_true_iff in Hl as [_ Hl]. cbn [lint_from] in Hl.
  apply andb_true_iff in Hl as [[H1 H2]%andb_true_iff _].
  apply bool_decide_eq_true in H1. split.
  - intros Hin. apply H1. by apply elem_of_rev.
  - rewrite forallb_forall in H2. apply Forall_forall. intros a Ha.
    apply list_elem_of_In in Ha. apply H2 in Ha.
    apply bool_decide_eq_true in Ha. by apply elem_of_rev.
Qed.

Lemma fresh_name_fresh g : fresh_name g ∉ names g.
Proof.
  unfold fresh_name. intros Hin.
  pose proof (max_list_elem_of_le _ _ Hin). lia.
Qed.

Lemma lint_snoc g n :
  lint g = true -> name n ∉ names g ->
  Forall (fun a => a ∈ names g) (args n) ->
  lint (g ++ [n]) = true.
Proof.
  intros Hl Hn Ha. unfold lint in *. rewrite lint_from_app, Hl, app_nil_r.
  cbn [lint_from andb]. rewrite andb_true_r. apply andb_true_iff. split.
  - apply bool_decide_eq_true. intros Hin. apply Hn. by apply elem_of_rev.
  - apply forallb_forall. intros a Hin. apply bool_decide_eq_true.
    apply elem_of_rev. rewrite Forall_forall in Ha. apply Ha.
    by apply list_elem_of_In.
Qed.

Lemma take_S_snoc {A} (l : list A) k x :
  l !! k = Some x -> take (S k) l = take k l ++ [x].
Proof. intros H. by apply take_S_r. Qed.

Lemma names_take_S g k n :
  g !! k = Some n -> names (take (S k) g) = names (take k g) ++ [name n].
Proof.
  intros H. rewrite (take_S_snoc _ _ _ H). unfold names. by rewrite fmap_app.
Qed.

(** The graph cut at a cut point passes [lint] when the graph does. *)
Lemma lint_truncate g k n :
  lint g = true -> g !! k = Some n -> lint (truncate g k) = true.
Proof.
  intros Hl Hk. unfold truncate. rewrite Hk. cbn [from_option].
  apply lint_snoc; cbn [name args].
  - by apply lint_take.
  - apply fresh_name_fresh.
  - constructor; [|done]. rewrite (names_take_S _ _ _ Hk).
    apply elem_of_app. right. by left.
Qed.

(** ** The driver loop and the specification of the driver *)

Section Refinement.
Context (module_fails : Graph -> list Value -> bool).

Lemma fold_each_applies ss p w p' w' :
  fold_each ss try_strategy p w = Ret p' w' ->
  exists b, applies ss (failing_state p) w (failing_state p') b w' /\
            any_succeeded p' = any_succeeded p || b.
Proof.
  revert p w. induction ss as [|S ss IH]; intros p w; simpl.
  - intros [= <- <-]. exists false. split; [constructor|by rewrite orb_false_r].
  - intros (p1 & w1 & H1 & H2)%bind_Ret. unfold try_strategy in H1.
    apply bind_Ret in H1 as (r & w1' & HS & Hr).
    apply IH in H2 as (b & Ha & Hb).
    destruct r as [new|]; injection Hr as <- <-; simpl in *.
    + exists true. split; [by eapply applies_take|].
      by rewrite Hb, orb_true_r.
    + exists b. split; [by eapply applies_keep|done].
Qed.

Lemma applies_fold_each ss st w st' b w' :
  applies ss st w st' b w' ->
  forall p, failing_state p = st ->
    exists p', fold_each ss try_strategy p w = Ret p' w' /\
               failing_state p' = st' /\
               any_succeeded p' = any_succeeded p || b.
Proof.
  induction 1 as [st w|S ss st w w1 st' b w' HS _ IH
                 |S ss st w new w1 st' b w' HS _ IH]; intros p Hp.
  - exists p. by rewrite orb_false_r.
  - destruct (IH p Hp) as (p' & Hf & Hst & Hb). exists p'.
    split; [|done]. cbn [fold_each]. unfold try_strategy at 1.
    by rewrite !bind_unfold, Hp, HS.
  - destruct (IH (mkPass new true (assigned p ++ [new])) eq_refl)
      as (p' & Hf & Hst & Hb). exists p'.
    split; [|split; [done|]].
    + cbn [fold_each]. unfold try_strategy at 1.
      by rewrite !bind_unfold, Hp, HS.
    + by rewrite Hb, orb_true_r.
Qed.

(** The loop of the driver returns a state exactly when that state is what
    the specification of the driver gives: passes over the six strategies
    in the fixed order, truncate-suffix, eliminate-dead-code,
    remove-unused-inputs, delta-debugging, eliminate-dead-code,
    remove-unused-inputs, each strategy applied to the state held at that
    moment, repeated as long as a pass makes progress and left after the
    first pass that makes none. *)
Theorem driver_loop_refines (st : ReproState) (w : World)
    (st' : ReproState) (w' : World) :
  (exists passes hist,
     minify_loop module_fails passes st w = Ret (st', hist) w') <->
  minimizes
    [ remove_suffix module_fails; eliminate_dead_code module_fails;
      remove_unused_inputs module_fails; delta_debugging module_fails;
      eliminate_dead_code module_fails; remove_unused_inputs module_fails ]
    st w st' w'.
Proof.
  change [ remove_suffix module_fails; eliminate_dead_code module_fails;
           remove_unused_inputs module_fails; delta_debugging module_fails;
           eliminate_dead_code module_fails; remove_unused_inputs module_fails ]
    with (strategies module_fails).
  split.
  - intros (passes & hist & H). revert st w hist H.
    induction passes as [|passes IH]; intros st w hist; [done|].
    cbn [minify_loop]. intros (p & w1 & Hp & H)%bind_Ret.
    apply fold_each_applies in Hp as (b & Ha & Hb). simpl in Ha, Hb.
    destruct (any_succeeded p) eqn:Hany; simpl in H.
    + apply bind_Ret in H as ([final hist'] & w2 & Hloop & [= <- <- <-]).
      apply IH in Hloop. subst b. by eapply minimizes_again.
    + injection H as <- <- <-. subst b. by apply minimizes_done.
  - induction 1 as [st w st' w' Ha|st w st1 w1 st' w' Ha _ IH].
    + destruct (applies_fold_each _ _ _ _ _ _ Ha (mkPass st false []) eq_refl)
        as (p & Hf & Hst & Hb). simpl in Hb.
      exists 1, [assigned p]. cbn [minify_loop]. unfold run_pass.
      rewrite bind_unfold, Hf, Hb. simpl. by rewrite Hst.
    + destruct (applies_fold_each _ _ _ _ _ _ Ha (mkPass st false []) eq_refl)
        as (p & Hf & Hst & Hb). simpl in Hb.
      destruct IH as (passes & hist & Hloop).
      exists (S passes), (assigned p :: hist). cbn [minify_loop].
      unfold run_pass. rewrite bind_unfold, Hf, Hb. simpl.
      by rewrite bind_unfold, Hst, Hloop.
Qed.

(** A run of the loop that returns within a bound on the number of passes
    returns the same within every larger bound. *)
Theorem minify_loop_bound passes passes' st w r w' :
  minify_loop module_fails passes st w = Ret r w' ->
  passes <= passes' ->
  minify_loop module_fails passes' st w = Ret r w'.
Proof.
  revert passes' st w r w'. induction passes as [|passes IH];
    intros passes' st w r w'; [done|].
  intros H Hle. destruct passes' as [|passes']; [lia|].
  cbn [minify_loop] in *. rewrite bind_unfold in *.
  destruct (run_pass _ _ _) as [p w1| |]; [|done|done].
  destruct (negb (any_succeeded p)); [done|].
  rewrite bind_unfold in *.
  destruct (minify_loop module_fails passes _ _) as [r1 w2| |] eqn:E;
    [|done|done].
  by rewrite (IH passes' _ _ _ _ E) by lia.
Qed.

(** A candidate that makes no progress, neither fewer nodes nor as many
    nodes and more inputs, is fatal: [new_func] raises its [RuntimeError]
    before the oracle is asked about the candidate. *)
Theorem no_progress_is_fatal strategy name old w g v new w1 sn so :
  graphs w !! graph old = Some g ->
  lists w !! inps old = Some v ->
  strategy (length (graphs w)) (length (lists w)) (started name g v w)
  = Ret (Some new) w1 ->
  sizes w1 new = Some sn ->
  sizes w1 old = Some so ->
  ~ progress so sn ->
  _register_strategy module_fails strategy name old w
  = Raise (RuntimeError "Success raised but no progress made?") w1.
Proof.
  intros Hg Hv Hs Hsn Hso Hp.
  rewrite register_started, Hg, Hv, bind_unfold, Hs, judge_Some, Hsn, Hso.
  by rewrite decide_False.
Qed.

End Refinement.

Lemma driver_loop_refines_witness :
  minimizes
    [ remove_suffix Demo.fails_on_f10; eliminate_dead_code Demo.fails_on_f10;
      remove_unused_inputs Demo.fails_on_f10; delta_debugging Demo.fails_on_f10;
      eliminate_dead_code Demo.fails_on_f10;
      remove_unused_inputs Demo.fails_on_f10 ]
    (mkReproState 0 0) Demo.two_inputs
    (mkReproState 5 4) (Demo.final_world Demo.loop_run).
Proof.
  apply (proj1 (driver_loop_refines Demo.fails_on_f10 _ _ _ _)).
  exists 5, [[mkReproState 5 4]; []]. vm_compute. reflexivity.
Defined.

Lemma minify_loop_bound_witness :
  minify_loop Demo.fails_on_f10 7 (mkReproState 0 0) Demo.two_inputs
  = Ret (mkReproState 5 4, [[mkReproState 5 4]; []])
      (Demo.final_world Demo.loop_run).
Proof.
  apply (minify_loop_bound Demo.fails_on_f10 2 7); [|lia].
  vm_compute. reflexivity.
Defined.

Lemma no_progress_is_fatal_witness :
  _register_strategy Demo.has_output Demo.keep_all "Keep all"
    (mkReproState 0 0) (Demo.one_input Demo.returns_input)
  = Raise (RuntimeError "Success raised but no progress made?")
      (started "Keep all" Demo.returns_input [Tensor 100]
         (Demo.one_input Demo.returns_input)).
Proof.
  apply (no_progress_is_fatal Demo.has_output Demo.keep_all "Keep all"
           (mkReproState 0 0) (Demo.one_input Demo.returns_input)
           Demo.returns_input [Tensor 100] (mkReproState 1 1) _ (2, 1) (2, 1));
    first [ vm_compute; reflexivity | unfold progress; simpl; lia ].
Defined.

Lemma map_args_id {S} (env : gmap nat nat) (xs : list nat) (s : S) :
  Forall (fun x => env !! x = Some x) xs -> map_args env xs s = Ret xs s.
Proof.
  induction 1 as [|x xs Hx _ IH]; [done|].
  cbn [map_args]. rewrite Hx, bind_unfold, IH. done.
Qed.

Lemma node_eta n :
  mkNode (name n) (op n) (target n) (args n) (concrete_value n) = n.
Proof. by destruct n. Qed.

(** Copying the next node of a valid graph into the copy of the nodes
    before it, under an [env] that maps these to themselves, extends the
    copy by that very node. *)
Lemma node_copy_next g k n (env : gmap nat nat) :
  lint g = true -> g !! k = Some n ->
  (forall x, x ∈ names (take k g) -> env !! x = Some x) ->
  node_copy n env (take k g) = Ret (name n) (take (S k) g).
Proof.
  intros Hl Hk Henv. destruct (lint_lookup _ _ _ Hl Hk) as [Hfresh Hargs].
  unfold node_copy. rewrite bind_unfold, map_args_id.
  2:{ eapply Forall_impl; [done|]. intros x Hx. by apply Henv. }
  rewrite bind_unfold. cbn [get]. rewrite bind_unfold. unfold create_name, put.
  rewrite bool_decide_eq_false_2 by done.
  by rewrite node_eta, (take_S_snoc _ _ _ Hk).
Qed.

Lemma lint_args_named g n a :
  lint g = true -> n ∈ g -> a ∈ args n -> a ∈ names g.
Proof.
  intros Hl [k Hk]%list_elem_of_lookup Ha.
  destruct (lint_lookup _ _ _ Hl Hk) as [_ Hargs].
  rewrite Forall_forall in Hargs. specialize (Hargs _ Ha).
  unfold names in *. apply list_elem_of_fmap in Hargs as (m & -> & Hm).
  apply list_elem_of_fmap. exists m. split; [done|].
  by eapply subseteq_take.
Qed.


Lemma filter_none {A} (f : A -> bool) (l : list A) :
  (forall x, x ∈ l -> f x = false) -> List.filter f l = [].
Proof.
  induction l as [|x l IH]; intros H; [done|]. cbn [List.filter].
  rewrite (H x) by left. apply IH. intros y Hy. apply H. by right.
Qed.

Lemma filter_all {A} (f : A -> bool) (l : list A) :
  (forall x, x ∈ l -> f x = true) -> List.filter f l = l.
Proof.
  induction l as [|x l IH]; intros H; [done|]. cbn [List.filter].
  rewrite (H x) by left. f_equal. apply IH. intros y Hy. apply H. by right.
Qed.

(** Erasing the output node that [add_output] has just appended gives the
    graph back. *)
Lemma erase_added_output g x :
  lint g = true -> x ∈ names g ->
  erase_node (fresh_name g)
    (g ++ [mkNode (fresh_name g) output (Named (fresh_name g)) [x] None])
  = Ret tt g.
Proof.
  intros Hl Hx. pose proof (fresh_name_fresh g) as Hf.
  unfold erase_node, users. rewrite filter_none.
  - cbn [fmap list_fmap]. rewrite List.filter_app, filter_all.
    + cbn [List.filter]. unfold has_name. cbn [name].
      rewrite bool_decide_eq_true_2 by done. cbn [negb].
      by rewrite app_nil_r.
    + intros n Hn. apply negb_true_iff, bool_decide_eq_false.
      intros E. apply Hf. rewrite <- E. unfold names.
      apply list_elem_of_fmap. eauto.
  - intros n [Hn|Hn]%elem_of_app; apply bool_decide_eq_false; intros Ha.
    + apply Hf. by eapply lint_args_named.
    + apply list_elem_of_singleton in Hn as ->. cbn [args] in Ha.
      apply list_elem_of_singleton in Ha as <-. done.
Qed.

Lemma add_output_eq result g :
  add_output result g =
  Ret (fresh_name g)
    (g ++ [mkNode (fresh_name g) output (Named (fresh_name g)) result None]).
Proof. reflexivity. Qed.

Lemma probe_app accept l1 l2 :
  probe accept (l1 ++ l2) =
  match snd (probe accept l1) with
  | Some idx => probe accept l1
  | None => (l1 ++ fst (probe accept l2), snd (probe accept l2))
  end.
Proof.
  induction l1 as [|x l1 IH]; cbn [app probe].
  - by destruct (probe accept l2).
  - destruct (accept x); cbn [fst snd]; [done|]. rewrite IH.
    by destruct (probe accept l1) as [t [i|]].
Qed.

Lemma probe_none accept l :
  snd (probe accept l) = None -> fst (probe accept l) = l.
Proof.
  induction l as [|x l IH]; [done|]. cbn [probe].
  destruct (accept x); [done|]. cbn [fst snd]. intros H. by rewrite IH.
Qed.

Lemma probe_some accept l idx :
  snd (probe accept l) = Some idx ->
  accept idx = true /\
  exists before after,
    l = before ++ idx :: after /\ fst (probe accept l) = before ++ [idx] /\
    Forall (fun i => accept i = false) before.
Proof.
  induction l as [|x l IH]; [done|]. cbn [probe].
  destruct (accept x) eqn:E.
  - cbn [fst snd]. intros [= <-]. split; [done|]. exists [], l.
    split; [done|]. split; [done|]. constructor.
  - cbn [fst snd]. intros H. destruct (IH H) as (Ha & before & after & -> & Hf & Hb).
    split; [done|]. exists (x :: before), after. rewrite Hf.
    split; [done|]. split; [done|]. by constructor.
Qed.

Lemma probed_insert g vs ng content content' tried w :
  set_graphs (fun h => <[ng := content']> h) (probed g vs ng content tried w)
  = probed g vs ng content' tried w.
Proof. unfold set_graphs, probed. simpl. by rewrite list_insert_insert_eq. Qed.

Lemma probed_query g vs ng content tried k w :
  log (Query (truncate g k) vs) (count_query (probed g vs ng content tried w))
  = probed g vs ng content (tried ++ [k]) w.
Proof.
  unfold log, count_query, probed. simpl.
  rewrite fmap_app, app_assoc, length_app. simpl. f_equal. lia.
Qed.

Lemma erase_truncate g k n :
  lint g = true -> g !! k = Some n ->
  erase_node (fresh_name (take (S k) g)) (truncate g k)
  = Ret tt (take (S k) g).
Proof.
  intros Hl Hk. unfold truncate. rewrite Hk. cbn [from_option].
  apply erase_added_output; [by apply lint_take|].
  rewrite (names_take_S _ _ _ Hk). apply elem_of_app. right. by left.
Qed.

Section Suffix.
Context (module_fails : Graph -> list Value -> bool).
Context (cur_graph cur_inps new_graph : loc) (g : Graph) (vs : list Value).
Context (w : World).
Context (Hlint : lint g = true).
Context (Hnew : new_graph <> cur_graph).
Context (Hlen : new_graph < length (graphs w)).
Context (Hg : graphs w !! cur_graph = Some g).
Context (Hvs : lists w !! cur_inps = Some vs).

Lemma probed_new content tried :
  graphs (probed g vs new_graph content tried w) !! new_graph = Some content.
Proof using Hlen. simpl. by apply list_lookup_insert_eq. Qed.

Lemma probed_cur content tried :
  graphs (probed g vs new_graph content tried w) !! cur_graph = Some g.
Proof using Hnew Hg. simpl. by rewrite list_lookup_insert_ne. Qed.

Lemma with_graph_probed {A} (m : St Graph A) content tried :
  with_graph new_graph m (probed g vs new_graph content tried w) =
  match m content with
  | Ret a g' => Ret a (probed g vs new_graph g' tried w)
  | Raise e g' => Raise e (probed g vs new_graph g' tried w)
  | Diverge => Diverge
  end.
Proof using Hlen.
  unfold with_graph. rewrite probed_new.
  destruct (m content); by rewrite ?probed_insert.
Qed.

(** One turn of the loop over the nodes, at node [k]. *)
Lemma suffix_step_run gap k n env tested tried :
  g !! k = Some n ->
  (forall x, x ∈ names (take k g) -> env !! x = Some x) ->
  suffix_step module_fails cur_graph cur_inps new_graph gap (k, n)
    (env, tested) (probed g vs new_graph (take k g) tried w)
  = if cut_point g k && (k mod gap =? 0) && negb (bool_decide (k ∈ tested))
    then
      if accepts module_fails g vs k
      then Ret (inr (mkReproState new_graph cur_inps))
             (probed g vs new_graph (truncate g k) (tried ++ [k]) w)
      else Ret (inl (<[name n := name n]> env, tested ∪ {[k]}))
             (probed g vs new_graph (take (S k) g) (tried ++ [k]) w)
    else Ret (inl (<[name n := name n]> env, tested))
           (probed g vs new_graph (take (S k) g) tried w).
Proof using All.
  intros Hk Henv. unfold suffix_step.
  rewrite bind_unfold, with_graph_probed, (node_copy_next _ _ _ _ Hlint Hk Henv).
  unfold cut_point. rewrite Hk.
  destruct (negb (bool_decide (op n ∈ [placeholder; output]))
            && (k mod gap =? 0) && negb (bool_decide (k ∈ tested))); [|done].
  rewrite !bind_unfold, with_graph_probed, add_output_eq.
  assert (take (S k) g ++
            [mkNode (fresh_name (take (S k) g)) output
               (Named (fresh_name (take (S k) g))) [name n] None]
          = truncate g k) as -> by (unfold truncate; by rewrite Hk).
  rewrite bind_unfold, graph_fails_eq, probed_new, (lint_truncate _ _ _ Hlint Hk).
  cbn [lists probed]. rewrite Hvs, probed_query. unfold accepts.
  destruct (module_fails (truncate g k) vs); cbn [andb].
  - rewrite !bind_unfold, len_nodes_eq, probed_new.
    rewrite !bind_unfold, len_nodes_eq, probed_cur.
    unfold ret at 1.
    destruct (length (truncate g k) <? length g); [done|].
    by rewrite !bind_unfold, with_graph_probed, (erase_truncate _ _ _ Hlint Hk).
  - unfold ret at 1.
    by rewrite !bind_unfold, with_graph_probed, (erase_truncate _ _ _ Hlint Hk).
Qed.

End Suffix.

(** Whether the cut at [idx] is tried at stride [gap] after [tested]. *)
Local Abbreviation due g gap tested :=
  (fun idx => cut_point g idx && (idx mod gap =? 0)
              && negb (bool_decide (idx ∈ tested))).

Lemma due_later (g : Graph) (gap : nat) (tested : gset nat) (k m : nat) :
  List.filter (due g gap (tested ∪ {[k]})) (seq (S k) m)
  = List.filter (due g gap tested) (seq (S k) m).
Proof.
  apply List.filter_ext_in. intros idx [Hidx _]%in_seq.
  rewrite (bool_decide_ext (idx ∈ tested ∪ {[k]}) (idx ∈ tested)); [done|].
  rewrite elem_of_union, elem_of_singleton. split; [|by left].
  intros [H|H]; [done|lia].
Qed.

Section Scan.
Context (module_fails : Graph -> list Value -> bool).
Context (cur_graph cur_inps new_graph : loc) (g : Graph) (vs : list Value).
Context (w : World).
Context (Hlint : lint g = true).
Context (Hnew : new_graph <> cur_graph).
Context (Hlen : new_graph < length (graphs w)).
Context (Hg : graphs w !! cur_graph = Some g).
Context (Hvs : lists w !! cur_inps = Some vs).

(** The loop over the nodes from node [k] on. *)
Lemma suffix_scan (gap : nat) (l : list Node) :
  forall (k : nat) (env : gmap nat nat) (tested : gset nat) (tried : list nat),
  drop k g = l ->
  (forall x, x ∈ names (take k g) -> env !! x = Some x) ->
  let todo := List.filter (due g gap tested) (seq k (length l)) in
  let r := probe (accepts module_fails g vs) todo in
  exists env',
    for_state (imap (fun i x => (k + i, x)) l)
      (suffix_step module_fails cur_graph cur_inps new_graph gap)
      (env, tested) (probed g vs new_graph (take k g) tried w)
    = match snd r with
      | Some idx =>
          Ret (inr (mkReproState new_graph cur_inps))
            (probed g vs new_graph (truncate g idx) (tried ++ fst r) w)
      | None =>
          Ret (inl (env', tested ∪ list_to_set todo))
            (probed g vs new_graph g (tried ++ fst r) w)
      end.
Proof using All.
  induction l as [|n l IH]; intros k env tested tried Hdrop Henv.
  - exists env. cbn. rewrite app_nil_r, (right_id_L ∅ (∪)).
    rewrite take_ge; [done|].
    apply drop_nil_inv in Hdrop. lia.
  - assert (g !! k = Some n) as Hk.
    { rewrite <- (Nat.add_0_r k), <- lookup_drop, Hdrop. done. }
    assert (drop (S k) g = l) as Hdrop'.
    { replace (S k) with (k + 1) by lia. by rewrite <- drop_drop, Hdrop. }
    rewrite imap_cons. cbn [for_state length seq List.filter].
    rewrite bind_unfold, Nat.add_0_r.
    rewrite (suffix_step_run module_fails cur_graph cur_inps new_graph g vs w
               Hlint Hnew Hlen Hg Hvs gap k n env tested tried Hk Henv).
    assert (forall x, x ∈ names (take (S k) g) ->
                      <[name n := name n]> env !! x = Some x) as Henv'.
    { intros x. rewrite (names_take_S _ _ _ Hk).
      intros [Hx| ->%list_elem_of_singleton]%elem_of_app.
      - destruct (decide (x = name n)) as [->|Hne].
        + apply lookup_insert_eq.
        + rewrite lookup_insert_ne by done. by apply Henv.
      - apply lookup_insert_eq. }
    rewrite (imap_ext _ (fun i x => (S k + i, x)))
      by (intros i x _; unfold compose; f_equal; lia).
    destruct (cut_point g k && (k mod gap =? 0)
              && negb (bool_decide (k ∈ tested))) eqn:Hdue.
    + cbn [probe]. destruct (accepts module_fails g vs k) eqn:Hacc.
      * exists env. by cbn.
      * destruct (IH (S k) _ (tested ∪ {[k]}) (tried ++ [k]) Hdrop' Henv')
          as [env' ->]. exists env'. rewrite due_later. cbn [fst snd].
        rewrite <- !app_assoc. cbn [app].
        destruct (snd (probe _ _)); [done|].
        do 2 f_equal. f_equal. cbn [list_to_set]. by rewrite (assoc_L (∪)).
    + destruct (IH (S k) _ tested tried Hdrop' Henv') as [env' ->].
      by exists env'.
Qed.

End Scan.

Lemma after_cuts_trans g vs t1 t2 w1 w2 w3 :
  after_cuts g vs t1 w1 w2 -> after_cuts g vs t2 w2 w3 ->
  after_cuts g vs (t1 ++ t2) w1 w3.
Proof.
  intros (P1 & Q1 & T1) (P2 & Q2 & T2). split; [by eapply preserved_trans|].
  rewrite Q2, Q1, T2, T1, length_app, fmap_app, app_assoc. split; [lia|done].
Qed.

Lemma probed_start g vs w :
  probed g vs (length (graphs w)) [] []
    (set_graphs (fun h => h ++ [[]]) w)
  = set_graphs (fun h => h ++ [[]]) w.
Proof.
  destruct w as [gs ls nq tr]. unfold probed, set_graphs. simpl.
  rewrite insert_app_r_alt, Nat.sub_diag, app_nil_r by done. done.
Qed.

Lemma after_cuts_probed g vs content tried w :
  after_cuts g vs tried w
    (probed g vs (length (graphs w)) content tried
       (set_graphs (fun h => h ++ [[]]) w)).
Proof.
  split; [split|done]; simpl.
  - by rewrite take_insert_ge, take_app_length.
  - by rewrite firstn_all.
Qed.

Section Rounds.
Context (module_fails : Graph -> list Value -> bool).
Context (cur_graph cur_inps : loc) (g : Graph) (vs : list Value).
Context (Hlint : lint g = true).

(** The rounds of the [while] loop from stride [gap] on. *)
Lemma suffix_rounds_run (fuel : nat) :
  forall (gap : nat) (tested : gset nat) (w : World),
  gap < fuel ->
  graphs w !! cur_graph = Some g ->
  lists w !! cur_inps = Some vs ->
  let r := probe (accepts module_fails g vs) (schedule fuel g gap tested) in
  exists w',
    after_cuts g vs (fst r) w w' /\
    match snd r with
    | Some idx =>
        exists new_graph,
          suffix_rounds module_fails fuel cur_graph cur_inps gap tested w
          = Ret (Some (mkReproState new_graph cur_inps)) w' /\
          length (graphs w) <= new_graph /\
          graphs w' !! new_graph = Some (truncate g idx)
    | None =>
        suffix_rounds module_fails fuel cur_graph cur_inps gap tested w
        = Ret None w'
    end.
Proof using Hlint.
  induction fuel as [|fuel IH]; intros gap tested w Hfuel Hg Hvs; [lia|].
  cbn [suffix_rounds schedule]. destruct (1 <=? gap) eqn:Hgap.
  2:{ exists w. cbn. split; [|done].
      split; [apply preserved_refl|]. by rewrite app_nil_r. }
  apply Nat.leb_le in Hgap.
  pose proof (lookup_lt_Some _ _ _ Hg) as Hcur.
  set (wa := set_graphs (fun h => h ++ [[]]) w).
  set (ng := length (graphs w)).
  assert (graphs wa !! cur_graph = Some g) as Hga
    by (by apply lookup_app_l_Some).
  assert (ng < length (graphs wa)) as Hlen
    by (subst ng wa; simpl; rewrite length_app; simpl; lia).
  assert (ng <> cur_graph) as Hnew by (subst ng; lia).
  destruct (suffix_scan module_fails cur_graph cur_inps ng g vs wa
              Hlint Hnew Hlen Hga Hvs gap g 0 ∅ tested [] eq_refl)
    as [env' Hscan].
  { intros x Hx. by apply elem_of_nil in Hx. }
  change (take 0 g) with (@nil Node) in Hscan.
  unfold wa at 1, ng at 2 in Hscan. rewrite probed_start in Hscan.
  fold wa in Hscan.
  rewrite bind_unfold. unfold alloc_graph. fold wa ng.
  rewrite bind_unfold. unfold read_graph. rewrite Hga.
  rewrite bind_unfold.
  change (enumerate g) with (imap (fun i (x : Node) => (0 + i, x)) g).
  rewrite Hscan. clear Hscan.
  cbn [app length]. fold (candidates g gap tested).
  rewrite probe_app.
  destruct (probe (accepts module_fails g vs) (candidates g gap tested))
    as [tried [idx|]] eqn:Hprobe; cbn [fst snd].
  - exists (probed g vs ng (truncate g idx) tried wa).
    split; [apply after_cuts_probed|]. exists ng.
    split; [done|]. split; [done|]. by apply list_lookup_insert_eq.
  - assert (tried = candidates g gap tested) as ->.
    { rewrite <- (probe_none (accepts module_fails g vs)
                    (candidates g gap tested)); by rewrite Hprobe. }
    set (w1 := probed g vs ng g (candidates g gap tested) wa).
    assert (after_cuts g vs (candidates g gap tested) w w1) as H1
      by apply after_cuts_probed.
    destruct (IH (gap / 2) (tested ∪ list_to_set (candidates g gap tested)) w1)
      as (w' & H2 & Hres).
    { pose proof (Nat.div_lt gap 2). lia. }
    { by eapply preserved_graph; [apply H1|]. }
    { done. }
    exists w'. split; [by eapply after_cuts_trans|].
    destruct (snd (probe _ (schedule fuel _ _ _))) as [idx|]; [|done].
    destruct Hres as (ng' & Hrun & Hle & Hlook). exists ng'.
    split; [done|]. split; [|done].
    destruct H1 as [P1 _]. apply preserved_length in P1. lia.
Qed.

End Rounds.

Lemma suffix_gap_pos n : 1 <= suffix_gap n.
Proof. unfold suffix_gap. lia. Qed.

(** For a graph of at least two nodes the first stride is a power of two,
    at most half of the number of nodes and more than a quarter of it. *)
Lemma suffix_gap_spec n :
  2 <= n -> exists j, suffix_gap n = 2 ^ j /\ 2 * 2 ^ j <= n < 4 * 2 ^ j.
Proof.
  intros Hn. unfold suffix_gap.
  set (a := Z.of_nat n). set (L := Z.log2 a).
  assert (0 < L)%Z as HL by (apply Z.log2_pos; lia).
  destruct (Z.log2_spec a ltac:(lia)) as [H1 H2]. fold L in H1, H2.
  replace (Z.succ L) with (Z.succ (Z.succ (L - 1))) in H2 by lia.
  replace L with (Z.succ (L - 1)) in H1 at 1 by lia.
  rewrite !Z.pow_succ_r in H2 by lia. rewrite Z.pow_succ_r in H1 by lia.
  assert (0 < 2 ^ (L - 1))%Z as Hp by (apply Z.pow_pos_nonneg; lia).
  exists (Z.to_nat (L - 1)).
  assert (2 ^ Z.to_nat (L - 1) = Z.to_nat (2 ^ (L - 1))) as ->.
  { apply Nat2Z.inj. rewrite Nat2Z.inj_pow, !Z2Nat.id by lia. done. }
  lia.
Qed.

Lemma schedule_zero rounds g tested : schedule rounds g 0 tested = [].
Proof. by destruct rounds. Qed.

Lemma candidates_spec g gap tested idx :
  idx ∈ candidates g gap tested <->
  cut_point g idx = true /\ idx mod gap = 0 /\ idx ∉ tested.
Proof.
  unfold candidates. rewrite list_elem_of_In, filter_In, in_seq.
  rewrite !andb_true_iff, Nat.eqb_eq, negb_true_iff, bool_decide_eq_false.
  split; [tauto|]. intros (Hc & Hm & Ht). split; [|done].
  unfold cut_point in Hc. destruct (g !! idx) eqn:E; [|done].
  apply lookup_lt_Some in E. lia.
Qed.

Lemma candidates_NoDup g gap tested : NoDup (candidates g gap tested).
Proof. apply NoDup_ListNoDup, List.NoDup_filter, seq_NoDup. Qed.

(** Stride after stride, every cut point that was not tried before is tried,
    once. *)
Lemma schedule_spec g rounds : forall gap tested,
  gap < rounds -> 1 <= gap ->
  NoDup (schedule rounds g gap tested) /\
  forall idx, idx ∈ schedule rounds g gap tested <->
              cut_point g idx = true /\ idx ∉ tested.
Proof.
  induction rounds as [|rounds IH]; intros gap tested Hr Hgap; [lia|].
  cbn [schedule]. rewrite (proj2 (Nat.leb_le 1 gap)) by done.
  destruct (decide (gap = 1)) as [->|Hne].
  - change (1 / 2) with 0. rewrite schedule_zero, app_nil_r.
    split; [apply candidates_NoDup|]. intros idx.
    rewrite candidates_spec, Nat.mod_1_r. tauto.
  - destruct (IH (gap / 2) (tested ∪ list_to_set (candidates g gap tested)))
      as [Hnd Hin].
    { pose proof (Nat.div_lt gap 2). lia. }
    { pose proof (Nat.div_mod_eq gap 2).
      pose proof (Nat.mod_upper_bound gap 2). lia. }
    split.
    + apply NoDup_app. split; [apply candidates_NoDup|]. split; [|done].
      intros idx H1 [_ H2]%Hin. apply H2, elem_of_union. right.
      by apply elem_of_list_to_set.
    + intros idx. rewrite elem_of_app, Hin, candidates_spec.
      rewrite elem_of_union, elem_of_list_to_set, candidates_spec.
      destruct (decide (idx mod gap = 0)); tauto.
Qed.

Section SuffixClaim.
Context (module_fails : Graph -> list Value -> bool).

(** C6 (as amended): truncate-suffix on a graph [g] that passes [lint].
    Its first stride is half of the largest power of two that is not above
    the number of nodes (and one for a single node).  The cut points are
    tried in the order of [suffix_schedule]: stride after stride, each
    stride half of the one before, down to one, at each stride the
    multiples of the stride in order, without those tried before; in the
    end every cut point has been tried, once.  Each cut tried costs one
    query, on the graph cut there; the first cut whose graph makes the
    oracle fail and has fewer nodes than [g] is accepted and that graph
    returned with the inputs; no progress is returned only when every cut
    point has been tried in vain. *)
Theorem remove_suffix_tries_cuts (cur_graph cur_inps : loc) (w : World)
    (g : Graph) (vs : list Value) :
  graphs w !! cur_graph = Some g ->
  lists w !! cur_inps = Some vs ->
  lint g = true ->
  0 < length g ->
  ((length g = 1 -> suffix_gap (length g) = 1) /\
   (2 <= length g ->
    exists j, suffix_gap (length g) = 2 ^ j /\
              2 * 2 ^ j <= length g < 4 * 2 ^ j)) /\
  (NoDup (suffix_schedule g) /\
   forall idx, idx ∈ suffix_schedule g <-> cut_point g idx = true) /\
  let r := probe (accepts module_fails g vs) (suffix_schedule g) in
  exists w',
    after_cuts g vs (fst r) w w' /\
    match snd r with
    | Some idx =>
        exists new_graph,
          remove_suffix_body module_fails cur_graph cur_inps w
          = Ret (Some (mkReproState new_graph cur_inps)) w' /\
          length (graphs w) <= new_graph /\
          graphs w' !! new_graph = Some (truncate g idx)
    | None =>
        remove_suffix_body module_fails cur_graph cur_inps w
        = Ret None (log (Print FailSuffixLine) w')
    end.
Proof.
  intros Hg Hvs Hlint Hn. split; [|split].
  - split; [by intros ->|apply suffix_gap_spec].
  - destruct (schedule_spec g (S (suffix_gap (length g)))
                (suffix_gap (length g)) ∅ ltac:(lia) (suffix_gap_pos _))
      as [Hnd Hin].
    split; [done|]. intros idx. unfold suffix_schedule. rewrite Hin.
    split; [tauto|]. intros H. split; [done|]. apply not_elem_of_empty.
  - intros r.
    destruct (suffix_rounds_run module_fails cur_graph cur_inps g vs Hlint
                (S (suffix_gap (length g))) (suffix_gap (length g)) ∅ w
                ltac:(lia) Hg Hvs) as (w' & Hac & Hres).
    fold (suffix_schedule g) in Hac, Hres. fold r in Hac, Hres.
    exists w'. split; [done|].
    unfold remove_suffix_body.
    rewrite bind_unfold, len_nodes_eq, Hg, bind_unfold. unfold check_log2.
    destruct (decide (length g = 0)); [lia|].
    change (ret tt w) with (Ret (S:=World) tt w). cbv beta iota.
    rewrite bind_unfold.
    destruct (snd r) as [idx|].
    + destruct Hres as (ng & Hrun & Hle & Hlook). exists ng.
      by rewrite Hrun.
    + by rewrite Hres.
Qed.

End SuffixClaim.

(** C6, on [Demo.chain] with the oracle [Demo.fails_on_f11]: the first cut
    tried, after node [b], is accepted. *)
Lemma remove_suffix_tries_cuts_witness :
  exists w' new_graph,
    remove_suffix_body Demo.fails_on_f11 0 0 (Demo.one_input Demo.chain)
    = Ret (Some (mkReproState new_graph 0)) w' /\
    graphs w' !! new_graph = Some (truncate Demo.chain 2) /\
    after_cuts Demo.chain [Tensor 100] [2] (Demo.one_input Demo.chain) w'.
Proof.
  destruct (proj2 (proj2 (remove_suffix_tries_cuts Demo.fails_on_f11 0 0
              (Demo.one_input Demo.chain) Demo.chain [Tensor 100]
              eq_refl eq_refl eq_refl ltac:(simpl; lia)))) as (w' & Hac & Hres).
  change (exists ng,
    remove_suffix_body Demo.fails_on_f11 0 0 (Demo.one_input Demo.chain)
    = Ret (Some (mkReproState ng 0)) w' /\
    length (graphs (Demo.one_input Demo.chain)) <= ng /\
    graphs w' !! ng = Some (truncate Demo.chain 2)) in Hres.
  destruct Hres as (ng & Hrun & _ & Hlook).
  exists w', ng. split; [exact Hrun|]. split; [exact Hlook|exact Hac].
Defined.

(** C6: a graph of six nodes.  The largest power of two below six is four,
    but the first stride is two: the cut after node [b] is tried first and
    the cut after node [d], the only one at stride four, second. *)
Lemma first_stride_counterexample :
  length Demo.chain = 6 /\ 2 ^ 2 < 6 <= 2 ^ 3 /\ suffix_gap 6 = 2 /\
  remove_suffix_body Demo.never_fails 0 0 (Demo.one_input Demo.chain)
  = Demo.chain_run /\
  match Demo.chain_run with
  | Ret None w' =>
      trace w' =
      [ Query (truncate Demo.chain 2) [Tensor 100];
        Query (truncate Demo.chain 4) [Tensor 100];
        Query (truncate Demo.chain 1) [Tensor 100];
        Query (truncate Demo.chain 3) [Tensor 100];
        Print FailSuffixLine ]
  | _ => False
  end.
Proof.
  split; [reflexivity|]. split; [simpl; lia|]. split; [reflexivity|].
  split; vm_compute; reflexivity.
Qed.

(** ** What the loop accepts and what the minifier hands out *)

Lemma reproduces_preserved module_fails w w' st :
  preserved w w' -> reproduces module_fails w st -> reproduces module_fails w' st.
Proof.
  intros Hp (g & v & Hg & Hv & Hl & Hf). exists g, v.
  split; [by eapply preserved_graph|]. split; [by eapply preserved_list|done].
Qed.

Section Accepted.
Context (module_fails : Graph -> list Value -> bool).

Lemma try_strategies_reproduce ss names p w p' w' :
  Forall2 (wrapped module_fails) ss names ->
  fold_each ss try_strategy p w = Ret p' w' ->
  exists news, assigned p' = assigned p ++ news /\
               Forall (reproduces module_fails w') news.
Proof.
  intros Hss. revert p w. induction Hss as [|S name ss names HS Hss IH];
    intros p w; simpl.
  - intros [= <- <-]. exists []. by rewrite app_nil_r.
  - intros (p1 & w1 & H1 & H2)%bind_Ret. unfold try_strategy in H1.
    apply bind_Ret in H1 as (r & w1' & HSr & Hr).
    apply HS in HSr as (_ & _ & _ & Hnew).
    pose proof (try_strategies_run _ _ _ _ _ _ _ Hss H2) as (P2 & _).
    apply IH in H2 as (news & A2 & R2).
    destruct r as [new|]; injection Hr as <- <-; simpl in *.
    + destruct (Hnew new eq_refl) as [_ Hrep].
      exists (new :: news). rewrite A2, <- app_assoc. split; [done|].
      constructor; [by eapply reproduces_preserved|done].
    + by exists news.
Qed.

Lemma minify_loop_reproduce passes st w final hist w' :
  minify_loop module_fails passes st w = Ret (final, hist) w' ->
  Forall (reproduces module_fails w') (concat hist).
Proof.
  revert st w final hist. induction passes as [|passes IH];
    intros st w final hist; [done|]. cbn [minify_loop].
  intros (p & w1 & Hp & H)%bind_Ret.
  pose proof Hp as Hp'.
  eapply try_strategies_reproduce in Hp as (news & A & R);
    [|apply wrapped_strategies, register_wrapped].
  simpl in A. subst news.
  destruct (any_succeeded p); simpl in H.
  - apply bind_Ret in H as ([final' hist'] & w2 & Hloop & [= <- <- <-]).
    pose proof (minify_loop_run _ _ _ _ _ _ _ Hloop) as (P2 & _).
    apply IH in Hloop. simpl. apply Forall_app. split; [|done].
    eapply Forall_impl; [done|]. intros x. by apply reproduces_preserved.
  - injection H as <- <- <-. simpl. by rewrite app_nil_r.
Qed.

Lemma minify_loop_final passes st w final hist w' :
  minify_loop module_fails passes st w = Ret (final, hist) w' ->
  reproduces module_fails w st -> reproduces module_fails w' final.
Proof.
  intros H Hst. pose proof (minify_loop_reproduce _ _ _ _ _ _ H) as Hall.
  apply minify_loop_run in H as (P & _ & -> & _).
  rewrite Forall_forall in Hall.
  unfold last_state. destruct (concat hist) as [|x l] eqn:E using rev_ind.
  - simpl. by apply (reproduces_preserved module_fails w w' st P).
  - rewrite last_last. apply Hall, elem_of_app. right. by left.
Qed.

(** Every state the loop has accepted passes [lint] and makes the oracle
    fail, in the store in which the loop ends; so does the state the loop
    ends with, provided the state it started from did. *)
Theorem accepted_states_reproduce passes st w final hist w' :
  minify_loop module_fails passes st w = Ret (final, hist) w' ->
  (forall new, new ∈ concat hist ->
     exists g v, graphs w' !! graph new = Some g /\
                 lists w' !! inps new = Some v /\
                 lint g = true /\ module_fails g v = true) /\
  ((exists g v, graphs w !! graph st = Some g /\ lists w !! inps st = Some v /\
                lint g = true /\ module_fails g v = true) ->
   exists g v, graphs w' !! graph final = Some g /\
               lists w' !! inps final = Some v /\
               lint g = true /\ module_fails g v = true).
Proof.
  intros H. pose proof (minify_loop_reproduce _ _ _ _ _ _ H) as Hall.
  rewrite Forall_forall in Hall. split; [done|].
  by apply (minify_loop_final _ _ _ _ _ _ H).
Qed.

End Accepted.

Lemma accepted_states_reproduce_witness :
  match Demo.loop_run with
  | Ret (final, hist) w' =>
      exists g v, graphs w' !! graph final = Some g /\
                  lists w' !! inps final = Some v /\
                  lint g = true /\ Demo.fails_on_f10 g v = true
  | _ => False
  end.
Proof.
  unfold Demo.loop_run. cbv beta iota.
  apply (proj2 (accepted_states_reproduce Demo.fails_on_f10 5
                  (mkReproState 0 0) Demo.two_inputs _ _ _
                  ltac:(vm_compute; reflexivity))).
  exists Demo.unused_input, [Tensor 100; Tensor 101].
  repeat split; vm_compute; reflexivity.
Defined.

Section Result.
Context (module_fails : Graph -> list Value -> bool).
Context (execute : Graph -> list Value -> option (list Value)).



End Result.


(** ** ConcreteProp records results as they are *)



(** ** Conversion keeps the nodes and the inputs *)

Lemma rewritten_refl g : rewritten g g.
Proof. unfold rewritten. induction g; constructor; [by left|done]. Qed.

Lemma rewritten_trans g1 g2 g3 :
  rewritten g1 g2 -> rewritten g2 g3 -> rewritten g1 g3.
Proof.
  intros H12 H23. eapply Forall2_trans; [|done|done].
  intros n1 n2 n3 [-> | ->] [-> | ->]; simpl; auto.
Qed.

Lemma rewritten_update i g : rewritten (update_node i as_placeholder g) g.
Proof.
  unfold rewritten, update_node. apply Forall2_fmap_l, Forall_Forall2_diag.
  apply Forall_forall. intros n _. unfold compose. cbv beta.
  destruct (has_name i n); [by right|by left].
Qed.

Lemma kept_refl s : kept s s.
Proof. split; [apply rewritten_refl|done]. Qed.

Lemma kept_trans s1 s2 s3 : kept s1 s2 -> kept s2 s3 -> kept s1 s3.
Proof.
  intros [R1 P1] [R2 P2]. split; [by eapply rewritten_trans|by etrans].
Qed.

Lemma for_each_kept (l : list nat) (f : nat -> St Conv unit) s :
  (forall x t, match f x t with
               | Ret _ t' | Raise _ t' => kept t' t
               | Diverge => True
               end) ->
  match for_each l f s with
  | Ret _ s' | Raise _ s' => kept s' s
  | Diverge => True
  end.
Proof.
  intros Hf. revert s. induction l as [|x l IH]; intros s; simpl.
  - apply kept_refl.
  - rewrite bind_unfold. specialize (Hf x s).
    destruct (f x s) as [[] t|e t|]; [|done|done].
    specialize (IH t).
    destruct (for_each l f t) as [[] t'|e t'|]; [| |done];
      by eapply kept_trans.
Qed.

Lemma convert_kept d i s :
  match convert d i s with
  | Ret _ s' | Raise _ s' => kept s' s
  | Diverge => True
  end.
Proof.
  revert i s. induction d as [|d IH]; intros i s; [done|].
  rewrite convert_S. destruct (find_node (fst s) i) as [node|];
    [|apply kept_refl].
  destruct (decide _); [apply kept_refl|].
  assert (kept (converted i s) s) as Hc.
  { split; [apply rewritten_update|done]. }
  destruct (concrete_value node) as [cv|]; [|done].
  assert (forall v, kept (fst (converted i s), snd s ++ [v]) s) as Hv.
  { intros v. split; [apply rewritten_update|by apply prefix_app_r]. }
  destruct (is_tensor cv); [apply Hv|].
  pose proof (for_each_kept (users (fst (converted i s)) i) (convert d)
                (fst (converted i s), snd s ++ [torch_zeros]) IH) as H.
  destruct (for_each _ _ _) as [[] s'|e s'|]; [| |done];
    (eapply kept_trans; [exact H|apply Hv]).
Qed.

(** Whether it returns or raises, [_convert_node_to_placeholder] leaves
    the graph with the same nodes in the same order, each one as it was
    or rewritten into a placeholder of the same name and recorded value,
    and it only appends to the list of inputs. *)
Theorem conversion_keeps_nodes (i : nat) (g : Graph) (inps : list Value) :
  match _convert_node_to_placeholder i (g, inps) with
  | Ret _ (g', inps') | Raise _ (g', inps') =>
      Forall2 (fun n' n =>
                 n' = n \/
                 n' = mkNode (name n) placeholder (Named (name n)) []
                        (concrete_value n)) g' g /\
      names g' = names g /\
      exists appended, inps' = inps ++ appended
  | Diverge => False
  end.
Proof.
  pose proof (convert_kept (S (length g)) i (g, inps)) as H.
  assert (convert (S (length g)) i (g, inps) <> Diverge) as Hd.
  { apply convert_terminates. cbn [fst]. pose proof (pending_le_length g i). lia. }
  unfold _convert_node_to_placeholder. cbn [fst].
  destruct (convert (S (length g)) i (g, inps))
    as [[] [g' inps']|e [g' inps']|]; [| |done];
    destruct H as [Hr Hp]; cbn [fst snd] in Hr, Hp;
    (split; [exact Hr|]); (split; [|exact Hp]);
    unfold names; apply list_eq_Forall2, Forall2_fmap;
    (eapply Forall2_impl; [exact Hr|]); by intros n' n [-> | ->].
Qed.

(** ** Consolidation of the placeholders *)

Lemma forallb_pointwise {A} (f f' : A -> bool) (l : list A) :
  (forall a, f a = f' a) -> forallb f l = forallb f' l.
Proof.
  intros H. induction l as [|x l IH]; [done|]. cbn [forallb]. by rewrite H, IH.
Qed.

Lemma lint_from_ext seen seen' g :
  (forall a, a ∈ seen <-> a ∈ seen') -> lint_from seen g = lint_from seen' g.
Proof.
  revert seen seen'. induction g as [|n g IH]; intros seen seen' H; [done|].
  cbn [lint_from]. f_equal; [f_equal|].
  - apply bool_decide_ext. by rewrite H.
  - apply forallb_pointwise. intros a. apply bool_decide_ext, H.
  - apply IH. intros a. rewrite !elem_of_cons. by rewrite H.
Qed.

(** A node can be moved behind nodes without operands that follow it. *)
Lemma lint_from_move seen n front back :
  Forall (fun p => args p = []) front ->
  lint_from seen (n :: front ++ back) = true ->
  lint_from seen (front ++ n :: back) = true.
Proof.
  intros Hfront. revert seen. induction Hfront as [|p front Hp _ IH];
    intros seen; [done|].
  cbn [app lint_from]. rewrite Hp. cbn [forallb]. rewrite !andb_true_r.
  intros [[Hn Hargs]%andb_true_iff [Hpn Hrest]%andb_true_iff]%andb_true_iff.
  apply bool_decide_eq_true in Hn, Hpn.
  rewrite not_elem_of_cons in Hpn. destruct Hpn as [Hne Hps].
  apply andb_true_iff. split; [by apply bool_decide_eq_true|].
  apply IH. cbn [lint_from]. apply andb_true_iff. split.
  - apply andb_true_iff. split.
    + apply bool_decide_eq_true. rewrite not_elem_of_cons. split; [done|done].
    + rewrite forallb_forall in Hargs. apply forallb_forall. intros a Ha.
      specialize (Hargs a Ha). apply bool_decide_eq_true in Hargs.
      apply bool_decide_eq_true. by right.
  - rewrite <- Hrest. apply lint_from_ext. intros a.
    rewrite !elem_of_cons. tauto.
Qed.

Lemma lint_from_partition seen g :
  Forall (fun n => op n = placeholder -> args n = []) g ->
  lint_from seen g = true ->
  lint_from seen
    (List.filter (fun n => bool_decide (op n = placeholder)) g ++
     List.filter (fun n => bool_decide (op n <> placeholder)) g) = true.
Proof.
  intros Hg. revert seen. induction Hg as [|n g Hn Hg IH]; intros seen; [done|].
  cbn [List.filter]. destruct (decide (op n = placeholder)) as [E|E].
  - rewrite (bool_decide_eq_true_2 _ E), bool_decide_eq_false_2 by auto.
    cbn [app lint_from].
    intros [Hc Hrest]%andb_true_iff. rewrite Hc. cbn [andb]. by apply IH.
  - rewrite (bool_decide_eq_false_2 _ E), bool_decide_eq_true_2 by done.
    intros [Hc Hrest]%andb_true_iff. apply lint_from_move.
    + clear -Hg. induction Hg as [|m g Hm _ IHg]; [constructor|].
      cbn [List.filter]. case_bool_decide; [|done].
      constructor; [by apply Hm|done].
    + cbn [lint_from]. rewrite Hc. cbn [andb]. by apply IH.
Qed.

Lemma set_graphs_same (l : loc) g w :
  graphs w !! l = Some g -> set_graphs (fun h => <[l := g]> h) w = w.
Proof.
  intros H. destruct w as [gs ls nq tr]. unfold set_graphs. simpl in *.
  by rewrite list_insert_id.
Qed.

Lemma node_copy_append n (env : gmap nat nat) G :
  name n ∉ names G ->
  Forall (fun a => a ∈ names G) (args n) ->
  (forall x, x ∈ names G -> env !! x = Some x) ->
  node_copy n env G = Ret (name n) (G ++ [n]).
Proof.
  intros Hfresh Hargs Henv. unfold node_copy.
  rewrite bind_unfold, map_args_id.
  2:{ eapply Forall_impl; [done|]. intros x Hx. by apply Henv. }
  rewrite bind_unfold. cbn [get]. rewrite bind_unfold. unfold create_name, put.
  rewrite bool_decide_eq_false_2 by done. by rewrite node_eta.
Qed.

(** One of the two loops: the nodes that satisfy [keep] are appended to the
    new graph, in order. *)
Lemma fold_consolidate (new_graph : loc) keep l :
  forall G (env : gmap nat nat) w,
  graphs w !! new_graph = Some G ->
  lint_from (rev (names G)) (List.filter keep l) = true ->
  (forall x, x ∈ names G -> env !! x = Some x) ->
  exists env',
    fold_each l (consolidate_step new_graph keep) env w
    = Ret env' (set_graphs (fun h => <[new_graph := G ++ List.filter keep l]> h) w) /\
    (forall x, x ∈ names (G ++ List.filter keep l) -> env' !! x = Some x).
Proof.
  induction l as [|n l IH]; intros G env w HG Hlint Henv.
  - exists env. cbn. rewrite app_nil_r, set_graphs_same by done. done.
  - cbn [fold_each List.filter] in *. unfold consolidate_step at 1.
    destruct (keep n).
    + cbn [lint_from] in Hlint.
      apply andb_true_iff in Hlint as [[H1 H2]%andb_true_iff H3].
      apply bool_decide_eq_true in H1. rewrite elem_of_rev in H1.
      assert (Forall (fun a => a ∈ names G) (args n)) as Hargs.
      { apply Forall_forall. intros a Ha. rewrite forallb_forall in H2.
        apply list_elem_of_In in Ha. apply H2 in Ha.
        apply bool_decide_eq_true in Ha. by rewrite elem_of_rev in Ha. }
      rewrite !bind_unfold. unfold with_graph. rewrite HG.
      rewrite (node_copy_append _ _ _ H1 Hargs Henv).
      destruct (IH (G ++ [n]) (<[name n := name n]> env)
                  (set_graphs (fun h => <[new_graph := G ++ [n]]> h) w))
        as (env' & Hrun & Henv').
      * simpl. apply list_lookup_insert_eq. by eapply lookup_lt_Some.
      * unfold names. rewrite fmap_app, rev_app_distr. exact H3.
      * intros x. unfold names. rewrite fmap_app.
        intros [Hx| ->%list_elem_of_singleton]%elem_of_app.
        -- destruct (decide (x = name n)) as [->|Hne].
           ++ apply lookup_insert_eq.
           ++ rewrite lookup_insert_ne by done. by apply Henv.
        -- apply lookup_insert_eq.
      * exists env'. unfold ret at 1. rewrite Hrun.
        rewrite <- app_assoc in *. cbn [app] in *.
        split; [|done]. f_equal. unfold set_graphs. simpl.
        by rewrite list_insert_insert_eq.
    + rewrite bind_unfold. unfold ret at 1. by apply IH.
Qed.

(** [_consolidate_placeholders] builds a new graph that holds the nodes of
    the graph it is given, the placeholders first and the other nodes
    after them, each group in the order it had; the new graph passes
    [lint] when the old one does and its placeholders have no operands. *)
Theorem consolidate_placeholders_partitions (cur_graph : loc) w g :
  graphs w !! cur_graph = Some g ->
  lint g = true ->
  Forall (fun n => op n = placeholder -> args n = []) g ->
  let g' := List.filter (fun n => bool_decide (op n = placeholder)) g ++
            List.filter (fun n => bool_decide (op n <> placeholder)) g in
  _consolidate_placeholders cur_graph w
  = Ret (length (graphs w)) (set_graphs (fun h => h ++ [g']) w) /\
  lint g' = true.
Proof.
  intros Hg Hlint Hph g'.
  pose proof (lint_from_partition [] g Hph Hlint) as Hl'. fold g' in Hl'.
  split; [|done]. subst g'.
  set (P := List.filter (fun n => bool_decide (op n = placeholder)) g) in *.
  set (N := List.filter (fun n => bool_decide (op n <> placeholder)) g) in *.
  rewrite lint_from_app in Hl'. apply andb_true_iff in Hl' as [HP HN].
  rewrite app_nil_r in HN.
  unfold _consolidate_placeholders.
  rewrite bind_unfold. unfold alloc_graph.
  set (wa := set_graphs (fun h => h ++ [[]]) w).
  set (ng := length (graphs w)).
  assert (graphs wa !! cur_graph = Some g) as Hga
    by (by apply lookup_app_l_Some).
  assert (graphs wa !! ng = Some []) as Hnew.
  { subst wa ng. simpl. by rewrite lookup_app_r, Nat.sub_diag. }
  rewrite bind_unfold. unfold read_graph at 1. rewrite Hga.
  destruct (fold_consolidate ng (fun node => bool_decide (op node = placeholder))
              g [] ∅ wa Hnew HP) as (env1 & Hrun1 & Henv1).
  { intros x Hx. by apply elem_of_nil in Hx. }
  rewrite bind_unfold, Hrun1. cbn [app] in Henv1 |- *. fold P in Henv1 |- *.
  set (w1 := set_graphs (fun h => <[ng := P]> h) wa).
  assert (ng <> cur_graph) as Hne.
  { apply lookup_lt_Some in Hg. subst ng. lia. }
  assert (graphs w1 !! cur_graph = Some g) as Hg1.
  { subst w1. simpl. by rewrite list_lookup_insert_ne. }
  assert (graphs w1 !! ng = Some P) as Hnew1.
  { subst w1. simpl. apply list_lookup_insert_eq. by eapply lookup_lt_Some. }
  rewrite bind_unfold. unfold read_graph at 1. rewrite Hg1.
  destruct (fold_consolidate ng (fun node => bool_decide (op node <> placeholder))
              g P env1 w1 Hnew1 HN Henv1) as (env2 & Hrun2 & _).
  rewrite bind_unfold, Hrun2. fold N. unfold ret. f_equal.
  subst w1 wa ng. destruct w as [gs ls nq tr]. unfold set_graphs. simpl.
  rewrite list_insert_insert_eq.
  by rewrite insert_app_r_alt, Nat.sub_diag by done.
Qed.

Lemma consolidate_placeholders_partitions_witness :
  _consolidate_placeholders 0 (Demo.one_input Demo.late_input)
  = Ret 1
      (mkWorld
         [ Demo.late_input;
           [ mkNode 0 placeholder (Named 0) [] (Some (Tensor 0));
             mkNode 2 placeholder (Named 2) [] (Some (Tensor 2));
             mkNode 1 call_function (Payload 10) [0] (Some (Tensor 1));
             mkNode 3 output (Named 3) [1] None ] ]
         [[Tensor 100]] 0 []).
Proof.
  apply (proj1 (consolidate_placeholders_partitions 0
                  (Demo.one_input Demo.late_input) Demo.late_input
                  eq_refl eq_refl
                  ltac:(repeat (constructor;
                                  [intros H; first [reflexivity | discriminate H]|]);
                        constructor))).
Defined.

(** ** Delta debugging keeps the nodes and adds inputs *)









Section DeltaProgress.
Context (module_fails : Graph -> list Value -> bool).
Context (g : Graph) (vs : list Value).
Context (Hnames : NoDup (names g)).





End DeltaProgress.



(** ** Remove unused inputs and eliminate dead code make progress *)

Lemma filter_has_name_length (i : nat) (G : Graph) n :
  n ∈ G -> name n = i ->
  length (List.filter (fun m => negb (has_name i m)) G) < length G.
Proof.
  intros Hin Hn. induction G as [|m G IH]; [by apply elem_of_nil in Hin|].
  cbn [List.filter]. unfold has_name at 1.
  pose proof (List.filter_length_le (fun m => negb (has_name i m)) G).
  case_bool_decide as E; simpl.
  - lia.
  - apply elem_of_cons in Hin as [->|Hin]; [done|].
    specialize (IH Hin). lia.
Qed.

Lemma erase_node_Ret i G G' :
  erase_node i G = Ret tt G' ->
  G' = List.filter (fun m => negb (has_name i m)) G.
Proof. unfold erase_node. destruct (users G i); [|done]. by intros [= <-]. Qed.

Lemma names_filter_NoDup (f : Node -> bool) g :
  NoDup (names g) -> NoDup (names (List.filter f g)).
Proof.
  unfold names. induction g as [|n g IH]; [done|].
  rewrite fmap_cons. intros [Hn Hnd]%NoDup_cons. cbn [List.filter].
  destruct (f n); [|by apply IH]. rewrite fmap_cons. apply NoDup_cons.
  split; [|by apply IH]. intros Hin. apply Hn.
  apply list_elem_of_fmap in Hin as (m & -> & Hm).
  apply list_elem_of_fmap. exists m. split; [done|].
  apply list_elem_of_In, filter_In in Hm as [Hm _].
  by apply list_elem_of_In.
Qed.

Section UnusedProgress.
Context (g : Graph) (vs : list Value) (ph_nodes : list Node).
Context (cur_graph cur_inps new_inps : loc).
Context (Hnames : NoDup (names ph_nodes)).
Context (Hne : new_inps <> cur_inps).

Lemma unused_input_step_inv k w w' :
  unused_inv g vs ph_nodes cur_graph cur_inps new_inps k w ->
  unused_input_step cur_graph cur_inps new_inps ph_nodes k w = Ret tt w' ->
  unused_inv g vs ph_nodes cur_graph cur_inps new_inps (S k) w'.
Proof using Hnames Hne.
  intros (G & acc & HG & Hacc & Hvs & Hlen & Hlater). unfold unused_input_step.
  destruct (ph_nodes !! k) as [ph|] eqn:Hph; [|done].
  intros (G0 & w0 & Hr & H)%bind_Ret.
  unfold read_graph in Hr. rewrite HG in Hr. injection Hr as <- <-.
  destruct (length (users G (name ph)) =? 0).
  - unfold with_graph in H. rewrite HG in H.
    destruct (erase_node (name ph) G) as [[] G'| |] eqn:He; [|done|done].
    injection H as <-. apply erase_node_Ret in He as ->.
    exists (List.filter (fun m => negb (has_name (name ph) m)) G), acc.
    cbn [graphs lists set_graphs].
    split; [apply list_lookup_insert_eq; by eapply lookup_lt_Some|].
    split; [done|]. split; [done|]. split.
    + pose proof (filter_has_name_length (name ph) G ph
                    (Hlater k ph (le_n _) Hph) eq_refl). lia.
    + intros j n Hj Hn. apply list_elem_of_In, filter_In. split.
      * apply list_elem_of_In. apply (Hlater j n); [lia|done].
      * apply negb_true_iff, bool_decide_eq_false. intros E.
        assert (j = k); [|lia].
        eapply (NoDup_lookup (names ph_nodes)); [done| |].
        -- unfold names. by rewrite list_lookup_fmap, Hn.
        -- unfold names. by rewrite list_lookup_fmap, Hph, E.
  - apply bind_Ret in H as (vs0 & w1 & Hr & H).
    unfold read_list in Hr. rewrite Hvs in Hr. injection Hr as <- <-.
    destruct (vs !! k) as [v|]; [|done].
    unfold list_append in H. rewrite Hacc in H. injection H as <-.
    exists G, (acc ++ [v]). cbn [graphs lists set_lists].
    split; [done|].
    split; [apply list_lookup_insert_eq; by eapply lookup_lt_Some|].
    split; [by rewrite list_lookup_insert_ne|].
    split; [rewrite length_app; simpl; lia|].
    intros j n Hj Hn. apply (Hlater j n); [lia|done].
Qed.

Lemma unused_inputs_inv m : forall k w w',
  unused_inv g vs ph_nodes cur_graph cur_inps new_inps k w ->
  for_each (seq k m) (unused_input_step cur_graph cur_inps new_inps ph_nodes) w
  = Ret tt w' ->
  unused_inv g vs ph_nodes cur_graph cur_inps new_inps (k + m) w'.
Proof using Hnames Hne.
  induction m as [|m IH]; intros k w w' Hi; simpl.
  - intros [= <-]. by rewrite Nat.add_0_r.
  - intros ([] & w1 & H1 & H2)%bind_Ret.
    replace (k + S m) with (S k + m) by lia.
    eapply IH; [|done]. by eapply unused_input_step_inv.
Qed.

End UnusedProgress.

(** A state that remove-unused-inputs returns has fewer inputs and fewer
    nodes than the state it was given; its graph passes [lint] and the
    oracle fails on it. *)
Theorem remove_unused_inputs_shrinks module_fails (cur_graph cur_inps : loc)
    w g vs new w' :
  graphs w !! cur_graph = Some g ->
  lists w !! cur_inps = Some vs ->
  NoDup (names g) ->
  remove_unused_inputs_body module_fails cur_graph cur_inps w
  = Ret (Some new) w' ->
  exists g' vs', graphs w' !! graph new = Some g' /\
                 lists w' !! inps new = Some vs' /\
                 length g' < length g /\ length vs' < length vs /\
                 lint g' = true /\ module_fails g' vs' = true.
Proof.
  intros Hg Hvs Hnd. unfold remove_unused_inputs_body.
  intros (g0 & w0 & Hr & H)%bind_Ret.
  unfold read_graph in Hr. rewrite Hg in Hr. injection Hr as <- <-.
  apply bind_Ret in H as (n_inps & w0 & Hn & H).
  rewrite len_list_eq, Hvs in Hn. injection Hn as <- <-.
  apply bind_Ret in H as ([] & w0 & Ha & H). unfold assert in Ha.
  destruct (length (_get_placeholders g) =? length vs) eqn:Hlen; [|done].
  injection Ha as <-. apply Nat.eqb_eq in Hlen.
  apply bind_Ret in H as (nl & w1 & Hal & H). injection Hal as <- <-.
  apply bind_Ret in H as ([] & w2 & Hloop & H).
  assert (length (lists w) <> cur_inps) as Hne.
  { apply lookup_lt_Some in Hvs. lia. }
  eapply (unused_inputs_inv g vs (_get_placeholders g) cur_graph cur_inps
            (length (lists w))) in Hloop; [| |done|].
  2:{ by apply names_filter_NoDup. }
  2:{ exists g, []. cbn [graphs lists set_lists].
      split; [done|]. split; [by rewrite lookup_app_r, Nat.sub_diag|].
      split; [by apply lookup_app_l_Some|]. split; [simpl; lia|].
      intros j n _ Hn. apply list_elem_of_lookup_2 in Hn.
      apply list_elem_of_In, filter_In in Hn as [Hn _].
      by apply list_elem_of_In. }
  destruct Hloop as (G & acc & HG & Hacc & Hvs2 & Hle & _).
  apply bind_Ret in H as (n_new & w3 & Hn & H).
  rewrite len_list_eq, Hacc in Hn. injection Hn as <- <-.
  apply bind_Ret in H as (n_cur & w3 & Hn & H).
  rewrite len_list_eq, Hvs2 in Hn. injection Hn as <- <-.
  apply bind_Ret in H as (ok & w3 & Hok & H).
  destruct ok; [|done]. injection H as <- <-.
  destruct (length acc <? length vs) eqn:Hlt; [|done].
  apply Nat.ltb_lt in Hlt.
  apply graph_fails_true in Hok as (g' & v' & Hg' & Hv' & Hl & Hmf & ->).
  rewrite HG in Hg'. injection Hg' as <-.
  rewrite Hacc in Hv'. injection Hv' as <-.
  exists G, acc. cbn [graph inps graphs lists log count_query].
  split; [done|]. split; [done|]. split; [simpl in Hle; lia|]. done.
Qed.

Lemma dead_code_loop_length todo : forall changed G changed' G',
  dead_code_loop todo changed G = Ret changed' G' ->
  length G' <= length G /\
  (changed' = true -> changed = true \/ length G' < length G).
Proof.
  induction todo as [|i todo IH]; intros changed G changed' G'; simpl.
  - intros [= <- <-]. split; [done|]. by left.
  - intros (node & G0 & Hnode & H)%bind_Ret.
    unfold node_named in Hnode.
    destruct (find_node G i) as [n|] eqn:Hfind; [|done].
    injection Hnode as <- <-.
    apply bind_Ret in H as (us & G0 & [= <- <-] & H).
    destruct (negb (is_impure n) && bool_decide (users G i = [])).
    + apply bind_Ret in H as ([] & G1 & He & H).
      apply erase_node_Ret in He as ->.
      apply IH in H as [Hle _].
      apply find_some in Hfind as [Hin Hname].
      apply bool_decide_eq_true in Hname.
      pose proof (filter_has_name_length i G n
                    (proj2 (list_elem_of_In _ _) Hin) Hname).
      split; [lia|]. intros _. right. lia.
    + by apply IH in H.
Qed.

(** A state that eliminate-dead-code returns has fewer nodes than the
    state it was given and the same inputs; its graph passes [lint] and
    the oracle fails on it. *)
Theorem eliminate_dead_code_shrinks module_fails (cur_graph cur_inps : loc)
    w g vs new w' :
  graphs w !! cur_graph = Some g ->
  lists w !! cur_inps = Some vs ->
  eliminate_dead_code_body module_fails cur_graph cur_inps w
  = Ret (Some new) w' ->
  exists g', graphs w' !! graph new = Some g' /\
             lists w' !! inps new = Some vs /\
             length g' < length g /\
             lint g' = true /\ module_fails g' vs = true.
Proof.
  intros Hg Hvs. unfold eliminate_dead_code_body.
  intros (changed & w1 & Hc & H)%bind_Ret.
  unfold with_graph in Hc. rewrite Hg in Hc.
  destruct (Fx.eliminate_dead_code g) as [c G'| |] eqn:Hd; [|done|done].
  injection Hc as <- <-.
  unfold Fx.eliminate_dead_code in Hd. rewrite bind_unfold in Hd.
  cbn [get] in Hd. apply dead_code_loop_length in Hd as [_ Hlt].
  apply bind_Ret in H as (ok & w2 & Hok & H).
  destruct ok; [|done]. injection H as <- <-.
  destruct c; [|done].
  apply graph_fails_true in Hok as (g' & v' & Hg' & Hv' & Hl & Hmf & ->).
  cbn [graphs lists set_graphs] in Hg', Hv'.
  rewrite list_lookup_insert_eq in Hg' by (by eapply lookup_lt_Some).
  injection Hg' as <-. rewrite Hvs in Hv'. injection Hv' as <-.
  exists G'. cbn [graph inps graphs lists log count_query set_graphs].
  split; [apply list_lookup_insert_eq; by eapply lookup_lt_Some|].
  split; [done|]. split; [|done].
  destruct (Hlt eq_refl) as [?|?]; [done|lia].
Qed.

Lemma remove_unused_inputs_shrinks_witness :
  match Demo.unused_run with
  | Ret (Some new) w' =>
      exists g' vs', graphs w' !! graph new = Some g' /\
                     lists w' !! inps new = Some vs' /\
                     length g' < length Demo.unused_input /\
                     length vs' < length [Tensor 100; Tensor 101] /\
                     lint g' = true /\ Demo.fails_on_f10 g' vs' = true
  | _ => False
  end.
Proof.
  unfold Demo.unused_run. cbv beta iota.
  apply (remove_unused_inputs_shrinks Demo.fails_on_f10 0 0 Demo.two_inputs
           Demo.unused_input [Tensor 100; Tensor 101]);
    [reflexivity|reflexivity| |vm_compute; reflexivity].
  apply (bool_decide_unpack _). vm_compute. reflexivity.
Defined.

Lemma eliminate_dead_code_shrinks_witness :
  match Demo.dead_run with
  | Ret (Some new) w' =>
      exists g', graphs w' !! graph new = Some g' /\
                 lists w' !! inps new = Some [Tensor 100] /\
                 length g' < length Demo.dead_code /\
                 lint g' = true /\ Demo.fails_on_f10 g' [Tensor 100] = true
  | _ => False
  end.
Proof.
  unfold Demo.dead_run. cbv beta iota.
  apply (eliminate_dead_code_shrinks Demo.fails_on_f10 0 0
           (Demo.one_input Demo.dead_code) Demo.dead_code [Tensor 100]);
    [reflexivity|reflexivity|vm_compute; reflexivity].
Defined.
